(** * Minesweeper knowledge base: a shallow embedding of [minesweeper.py]

    The classes [Sentence] and [MinesweeperAI] of
    [src/01 - Knowledge/minesweeper/minesweeper.py] are embedded as records
    and functions.  Python sets of cells are finite sets ([gset]) of integer
    pairs; the knowledge list is a list of sentences, and the methods that
    mutate the object become functions from state to state.  Operations
    that can raise in Python ([list.remove]) return in an error monad, and
    the [while] loop of [add_knowledge] is run with an explicit pass budget. *)

From Stdlib Require Import ZArith Lia.
From stdpp Require Import base decidable option list sets gmap numbers.

Open Scope Z_scope.
#[local] Set Warnings "-clear-no-such-hyp".

(** ** Data model *)

(** A cell is the Python tuple [(i, j)]. *)
Definition Cell : Type := (Z * Z)%type.

(** [class Sentence]: attributes [cells] and [count]. *)
Record Sentence := mkSentence { cells : gset Cell; count : Z }.

#[global] Instance Sentence_eq_dec : EqDecision Sentence.
Proof. solve_decision. Defined.

(** [class MinesweeperAI]: the attributes set by [__init__]. *)
Record MinesweeperAI := mkAI {
  height : Z;
  width : Z;
  moves_made : gset Cell;
  mines : gset Cell;
  safes : gset Cell;
  knowledge : list Sentence
}.

(** Python exceptions the modelled code can raise, and the budget marker
    of the [while] loop. *)
Inductive exn := ValueError | OutOfFuel.

Inductive res (A : Type) : Type :=
| Ok (a : A)
| Raise (e : exn).
Arguments Ok {A} a.
Arguments Raise {A} e.

#[global] Instance res_ret : MRet res := @Ok.

#[global] Instance res_bind : MBind res := λ A B f m,
  match m with
  | Ok a => f a
  | Raise e => Raise e
  end.

(** Left fold in the error monad: a [for] loop whose body may raise. *)
Fixpoint foldM {A S} (f : S → A → res S) (l : list A) (s : S) : res S :=
  match l with
  | [] => Ok s
  | a :: l' => s' ← f s a; foldM f l' s'
  end.

(** ** [Sentence] *)

Module Sentence.

(** [Sentence.__init__(cells, count)]: [set(cells)] copies the set, the
    count is stored as given; there is no [raise]. *)
Definition init (cs : gset Cell) (n : Z) : Sentence :=
  {| cells := cs; count := n |}.

(** [known_mines]: the cells themselves when [len(cells) == count]. *)
Definition known_mines (s : Sentence) : gset Cell :=
  if decide (Z.of_nat (size (cells s)) = count s) then cells s else ∅.

(** [known_safes]: the cells themselves when [count == 0]. *)
Definition known_safes (s : Sentence) : gset Cell :=
  if decide (count s = 0) then cells s else ∅.

(** [mark_mine]: [cells.remove(cell)] is guarded by [cell in cells]. *)
Definition mark_mine (s : Sentence) (c : Cell) : Sentence :=
  if decide (c ∈ cells s)
  then {| cells := cells s ∖ {[c]}; count := count s - 1 |}
  else s.

Definition mark_safe (s : Sentence) (c : Cell) : Sentence :=
  if decide (c ∈ cells s)
  then {| cells := cells s ∖ {[c]}; count := count s |}
  else s.

(** [is_subset]: [cells != other.cells and cells.issubset(other.cells)]. *)
Definition is_subset (s other : Sentence) : bool :=
  bool_decide (cells s ≠ cells other) && bool_decide (cells s ⊆ cells other).

Definition infer_new_sentance (s other : Sentence) : Sentence :=
  let different_cells := cells other ∖ cells s in
  let different_count := count other - count s in
  init different_cells different_count.

End Sentence.

(** ** Python list and range primitives *)

(** [list.remove(x)]: deletes the first element equal to [x] (the
    comparison is [Sentence.__eq__], equality of cells and count) and
    raises [ValueError] when there is none. *)
Fixpoint list_remove (x : Sentence) (l : list Sentence)
  : res (list Sentence) :=
  match l with
  | [] => Raise ValueError
  | y :: l' =>
      if decide (y = x) then Ok l'
      else l'' ← list_remove x l'; Ok (y :: l'')
  end.

(** [range(a, b)]. *)
Definition range (a b : Z) : list Z := seqZ a (b - a).

(** ** [MinesweeperAI] *)

Definition MinesweeperAI_init (h w : Z) : MinesweeperAI :=
  {| height := h; width := w; moves_made := ∅; mines := ∅; safes := ∅;
     knowledge := [] |}.

Definition set_knowledge (ai : MinesweeperAI) (k : list Sentence)
  : MinesweeperAI :=
  {| height := height ai; width := width ai; moves_made := moves_made ai;
     mines := mines ai; safes := safes ai; knowledge := k |}.

(** [self.moves_made.add(cell)]. *)
Definition add_move (ai : MinesweeperAI) (c : Cell) : MinesweeperAI :=
  {| height := height ai; width := width ai;
     moves_made := moves_made ai ∪ {[c]};
     mines := mines ai; safes := safes ai; knowledge := knowledge ai |}.

(** [mark_mine]: every sentence of the list is updated in place. *)
Definition mark_mine (ai : MinesweeperAI) (c : Cell) : MinesweeperAI :=
  {| height := height ai; width := width ai; moves_made := moves_made ai;
     mines := mines ai ∪ {[c]}; safes := safes ai;
     knowledge := (λ s, Sentence.mark_mine s c) <$> knowledge ai |}.

Definition mark_safe (ai : MinesweeperAI) (c : Cell) : MinesweeperAI :=
  {| height := height ai; width := width ai; moves_made := moves_made ai;
     mines := mines ai; safes := safes ai ∪ {[c]};
     knowledge := (λ s, Sentence.mark_safe s c) <$> knowledge ai |}.

(** *** [add_knowledge], first part: the new sentence *)

(** Body of the double loop over [(i, j)]: the clicked cell is recorded as
    a move and marked safe, every other cell joins [neibouring_cells]. *)
Definition scan_cell (cell : Cell) (st : MinesweeperAI * gset Cell) (ij : Cell)
  : MinesweeperAI * gset Cell :=
  if decide (ij = cell)
  then (mark_safe (add_move st.1 cell) cell, st.2)
  else (st.1, st.2 ∪ {[ij]}).

Definition scan_neighbours (ai : MinesweeperAI) (cell : Cell)
  : MinesweeperAI * gset Cell :=
  foldl (λ st i,
           foldl (λ st j, scan_cell cell st (i, j)) st
                 (range (Z.max 0 (cell.2 - 1)) (Z.min (cell.2 + 2) (width ai))))
        (ai, ∅)
        (range (Z.max 0 (cell.1 - 1)) (Z.min (cell.1 + 2) (height ai))).

(** [Sentence(neibouring_cells, count)] followed by the two loops that
    mark the known mines and the known safes in it.  Python iterates over
    a set in an order of its own; the model takes the order of [elements],
    and the marking loops give the same result in any order
    ([fold_mark_mine], [marking_order_irrelevant]). *)
Definition observation_sentence (ai : MinesweeperAI) (nb : gset Cell) (n : Z)
  : Sentence :=
  let new_sentence := Sentence.init nb n in
  let new_sentence :=
    foldl Sentence.mark_mine new_sentence (elements (mines ai)) in
  foldl Sentence.mark_safe new_sentence (elements (safes ai)).

(** State when the [while] loop is reached: the sentence is appended. *)
Definition observe (ai : MinesweeperAI) (cell : Cell) (n : Z)
  : MinesweeperAI :=
  let st := scan_neighbours ai cell in
  set_knowledge st.1 (knowledge st.1 ++ [observation_sentence st.1 st.2 n]).

(** *** The three inference functions of the loop condition *)

Definition inference_1 (ai : MinesweeperAI) : list Sentence :=
  flat_map (λ sentence_1,
    flat_map (λ sentence_2,
      if Sentence.is_subset sentence_1 sentence_2
      then [Sentence.infer_new_sentance sentence_1 sentence_2] else [])
      (knowledge ai))
    (knowledge ai).

Definition inference_2 (ai : MinesweeperAI) : list Sentence :=
  filter (λ s, Sentence.known_safes s ≠ ∅) (knowledge ai).

Definition inference_3 (ai : MinesweeperAI) : list Sentence :=
  filter (λ s, Sentence.known_mines s ≠ ∅) (knowledge ai).

(** Truth value of a Python list. *)
Definition truthy {A} (l : list A) : bool :=
  match l with [] => false | _ => true end.

Definition loop_cond (ai : MinesweeperAI) : bool :=
  truthy (inference_1 ai) || truthy (inference_2 ai) || truthy (inference_3 ai).

(** *** The loop body *)

(** Subsetting.  Both loops run over a copy of the list; the inner copy is
    taken afresh for every [sentence_1], the list itself is changed by
    [append] and [remove]. *)
Definition resolve_inner (sentence_1 : Sentence) (k : list Sentence)
    (sentence_2 : Sentence) : res (list Sentence) :=
  if Sentence.is_subset sentence_1 sentence_2
  then list_remove sentence_2
         (k ++ [Sentence.infer_new_sentance sentence_1 sentence_2])
  else Ok k.

Definition resolve_outer (k : list Sentence) (sentence_1 : Sentence)
  : res (list Sentence) :=
  foldM (resolve_inner sentence_1) k k.

Definition resolve_pass (k : list Sentence) : res (list Sentence) :=
  foldM resolve_outer k k.

(** Marking.  The loop runs over the list itself, whose length does not
    change here; the sentence at position [i] is read when the iterator
    reaches it, and again for [known_mines] after the safes are marked. *)
Definition mark_at (ai : MinesweeperAI) (i : nat) : MinesweeperAI :=
  match knowledge ai !! i with
  | None => ai
  | Some sentence =>
      let ai1 :=
        foldl mark_safe ai (elements (Sentence.known_safes sentence)) in
      match knowledge ai1 !! i with
      | None => ai1
      | Some sentence' =>
          foldl mark_mine ai1 (elements (Sentence.known_mines sentence'))
      end
  end.

Definition mark_pass (ai : MinesweeperAI) : MinesweeperAI :=
  foldl mark_at ai (seq 0 (length (knowledge ai))).

(** Removing the empty sentences.  The list iterator keeps an index and
    stops when it reaches the current length, while [remove] shortens the
    list under it.  At most [length k] elements are visited. *)
Fixpoint sweep (fuel i : nat) (k : list Sentence) : res (list Sentence) :=
  match fuel with
  | O => Ok k
  | S fuel' =>
      match k !! i with
      | None => Ok k
      | Some sentence =>
          if decide (cells sentence = ∅)
          then k' ← list_remove sentence k; sweep fuel' (S i) k'
          else sweep fuel' (S i) k
      end
  end.

Definition remove_empty (k : list Sentence) : res (list Sentence) :=
  sweep (length k) 0 k.

Definition loop_body (ai : MinesweeperAI) : res MinesweeperAI :=
  k1 ← resolve_pass (knowledge ai);
  let ai2 := mark_pass (set_knowledge ai k1) in
  k3 ← remove_empty (knowledge ai2);
  Ok (set_knowledge ai2 k3).

(** [while cond: body], with a budget of passes. *)
Fixpoint while_loop (fuel : nat) (ai : MinesweeperAI) : res MinesweeperAI :=
  if loop_cond ai then
    match fuel with
    | O => Raise OutOfFuel
    | S fuel' => ai' ← loop_body ai; while_loop fuel' ai'
    end
  else Ok ai.

Definition add_knowledge_fuel (fuel : nat) (ai : MinesweeperAI) (cell : Cell)
    (n : Z) : res MinesweeperAI :=
  while_loop fuel (observe ai cell n).

(** Measures of a knowledge list, and a number of passes that is always
    enough (see [while_loop_enough]). *)
Definition total_cells (k : list Sentence) : nat :=
  sum_list_with (λ s, size (cells s)) k.

Definition empties (k : list Sentence) : nat :=
  length (filter (λ s, cells s = ∅) k).

Definition measure (N : nat) (k : list Sentence) : nat :=
  (total_cells k * S N + empties k)%nat.

Definition passes_bound (ai : MinesweeperAI) : nat :=
  measure (length (knowledge ai)) (knowledge ai).

Definition add_knowledge (ai : MinesweeperAI) (cell : Cell) (n : Z)
  : res MinesweeperAI :=
  let ai1 := observe ai cell n in
  while_loop (passes_bound ai1) ai1.

(** *** Queries *)

(** [for move in l: if ...: return move] and then [return None]. *)
Fixpoint first_safe (ai : MinesweeperAI) (l : list Cell) : option Cell :=
  match l with
  | [] => None
  | move :: l' =>
      if decide ((move ∉ moves_made ai) ∧ (move ∉ mines ai)) then Some move
      else first_safe ai l'
  end.

Definition make_safe_move (ai : MinesweeperAI) : option Cell :=
  first_safe ai (elements (safes ai)).

Definition possible_moves (ai : MinesweeperAI) : list Cell :=
  flat_map (λ i,
    flat_map (λ j,
      let move := (i, j) in
      if decide ((move ∉ moves_made ai) ∧ (move ∉ mines ai))
      then [move] else [])
      (range 0 (width ai)))
    (range 0 (height ai)).

(** [random.randint] is the injected source [randint]; the function is
    what the source computes from the integer it returns, for an index
    that lies in the list. *)
Definition make_random_move (randint : Z → Z → Z) (ai : MinesweeperAI)
  : option Cell :=
  let moves := possible_moves ai in
  if truthy moves then
    let random_index := randint 0 (Z.of_nat (length moves) - 1) in
    moves !! Z.to_nat random_index
  else None.

(** ** Public operations as a transition system *)

Inductive op :=
| AddKnowledge (cell : Cell) (n : Z)
| MarkSafe (cell : Cell)
| MarkMine (cell : Cell)
| MakeSafeMove
| MakeRandomMove.

(** State after an operation; the two queries assign no attribute. *)
Definition run_op (o : op) (ai : MinesweeperAI) : res MinesweeperAI :=
  match o with
  | AddKnowledge cell n => add_knowledge ai cell n
  | MarkSafe cell => Ok (mark_safe ai cell)
  | MarkMine cell => Ok (mark_mine ai cell)
  | MakeSafeMove => Ok ai
  | MakeRandomMove => Ok ai
  end.

(** A game: observations fed one after the other. *)
Fixpoint play (ai : MinesweeperAI) (obs : list (Cell * Z))
  : res MinesweeperAI :=
  match obs with
  | [] => Ok ai
  | (cell, n) :: obs' => ai' ← add_knowledge ai cell n; play ai' obs'
  end.

(** ** Vocabulary of the properties *)

(** A cell of the [h] by [w] board. *)
Definition in_bounds (h w : Z) (c : Cell) : Prop :=
  (0 ≤ c.1 ∧ c.1 < h) ∧ (0 ≤ c.2 ∧ c.2 < w).

#[global] Instance in_bounds_dec h w c : Decision (in_bounds h w c).
Proof. unfold in_bounds. apply _. Defined.

(** The in-bounds 8-neighbours of a cell, written from the eight offsets
    and not from the loop of [add_knowledge]. *)
Definition neighbours8 (h w : Z) (c : Cell) : gset Cell :=
  list_to_set (filter (in_bounds h w)
    [ (c.1 - 1, c.2 - 1); (c.1 - 1, c.2); (c.1 - 1, c.2 + 1);
      (c.1, c.2 - 1);                     (c.1, c.2 + 1);
      (c.1 + 1, c.2 - 1); (c.1 + 1, c.2); (c.1 + 1, c.2 + 1) ]).

(** A sentence is true of the mine assignment [M]. *)
Definition sound_sentence (M : gset Cell) (s : Sentence) : Prop :=
  Z.of_nat (size (cells s ∩ M)) = count s.

Definition sound (M : gset Cell) (ai : MinesweeperAI) : Prop :=
  Forall (sound_sentence M) (knowledge ai) ∧ safes ai ## M ∧ mines ai ⊆ M.

(** A truthful observation on the [h] by [w] board with mines [M]. *)
Definition truthful (h w : Z) (M : gset Cell) (ob : Cell * Z) : Prop :=
  (ob.1 ∉ M) ∧ ob.2 = Z.of_nat (size (neighbours8 h w ob.1 ∩ M)).

(** No marked cell occurs in a sentence. *)
Definition stripped (ai : MinesweeperAI) : Prop :=
  Forall (λ s, cells s ## safes ai ∪ mines ai) (knowledge ai).

(** The sentences mention cells of the board only. *)
Definition on_board (ai : MinesweeperAI) : Prop :=
  Forall (λ s, ∀ c, c ∈ cells s → in_bounds (height ai) (width ai) c)
         (knowledge ai).

(** One firing of the subset rule with first sentence [s1], up to the
    order of the list: the difference is appended, [s2] is removed. *)
Definition resolution (s1 : Sentence) (k k' : list Sentence) : Prop :=
  ∃ s2, s2 ∈ k ∧ Sentence.is_subset s1 s2 = true
        ∧ k ++ [Sentence.infer_new_sentance s1 s2] ≡ₚ s2 :: k'.

Definition resolution_from (S : list Sentence) (k k' : list Sentence) : Prop :=
  ∃ s1, s1 ∈ S ∧ resolution s1 k k'.

(** Removal of one empty sentence, up to the order of the list. *)
Definition drop_empty (k k' : list Sentence) : Prop :=
  ∃ s, cells s = ∅ ∧ k ≡ₚ s :: k'.

(** One marking of the marking step, with the sentence of the list that
    justifies it: a sentence of count 0 for a safe cell, a sentence with as
    many cells as its count for a mine. *)
Inductive mark_step : MinesweeperAI → MinesweeperAI → Prop :=
| step_safe ai s c :
    s ∈ knowledge ai → count s = 0 → c ∈ cells s →
    mark_step ai (mark_safe ai c)
| step_mine ai s c :
    s ∈ knowledge ai → Z.of_nat (size (cells s)) = count s → c ∈ cells s →
    mark_step ai (mark_mine ai c).

(** Predicates on sentences that the subset rule preserves, and lists all
    of whose sentences follow from those of another list. *)
Definition closed (Q : Sentence → Prop) : Prop :=
  ∀ a b, Q a → Q b → Sentence.is_subset a b = true →
         Q (Sentence.infer_new_sentance a b).

Definition derivable (k k' : list Sentence) : Prop :=
  ∀ Q, closed Q → Forall Q k → Forall Q k'.

(** State predicates kept by every step of the loop body: replacing the
    list by a derivable one, and a justified marking. *)
Definition preserved (I : MinesweeperAI → Prop) : Prop :=
  (∀ ai k', I ai → derivable (knowledge ai) k' → I (set_knowledge ai k'))
  ∧ (∀ ai ai', I ai → mark_step ai ai' → I ai').

(** A session: public operations run one after the other. *)
Fixpoint run_ops (ops : list op) (ai : MinesweeperAI) : res MinesweeperAI :=
  match ops with
  | [] => Ok ai
  | o :: ops' => ai' ← run_op o ai; run_ops ops' ai'
  end.

(** What holds of every state of a session on the [h] by [w] board. *)
Definition well_formed (h w : Z) (ai : MinesweeperAI) : Prop :=
  (height ai = h ∧ width ai = w)
  ∧ on_board ai
  ∧ stripped ai
  ∧ moves_made ai ⊆ safes ai
  ∧ (∀ c, c ∈ moves_made ai → in_bounds h w c).

(** ** [class Minesweeper]: the board of the game *)

Module Minesweeper.

(** The exceptions of this class: [ValueError] is what [random.randrange]
    raises on an empty range, [IndexError] what list indexing raises;
    [NoMoreDraws] marks the end of the supply of random numbers given to
    the model. *)
Inductive error := ValueError | IndexError | NoMoreDraws.

Inductive outcome (A : Type) : Type :=
| Return (a : A)
| Raises (e : error).
Arguments Return {A} a.
Arguments Raises {A} e.

Definition and_then {A B} (m : outcome A) (f : A → outcome B) : outcome B :=
  match m with
  | Return a => f a
  | Raises e => Raises e
  end.

(** [l[i]] of Python: a negative index counts from the end. *)
Definition py_index {A} (l : list A) (i : Z) : outcome nat :=
  if decide (0 ≤ i ∧ i < Z.of_nat (length l)) then Return (Z.to_nat i)
  else if decide (- Z.of_nat (length l) ≤ i ∧ i < 0)
       then Return (Z.to_nat (Z.of_nat (length l) + i))
       else Raises IndexError.

Definition py_get {A} (l : list A) (i : Z) : outcome A :=
  and_then (py_index l i) (λ k,
    match l !! k with
    | Some a => Return a
    | None => Raises IndexError
    end).

(** [l[i] = v]. *)
Definition py_set {A} (l : list A) (i : Z) (v : A) : outcome (list A) :=
  and_then (py_index l i) (λ k, Return (<[k := v]> l)).

(** [board[i][j]] and [board[i][j] = v]; the rows are separate lists. *)
Definition get2 (b : list (list bool)) (c : Cell) : outcome bool :=
  and_then (py_get b c.1) (λ row, py_get row c.2).

Definition set2 (b : list (list bool)) (c : Cell) (v : bool)
  : outcome (list (list bool)) :=
  and_then (py_get b c.1) (λ row,
    and_then (py_set row c.2 v) (λ row', py_set b c.1 row')).

Record t := mk {
  height : Z;
  width : Z;
  mines : gset Cell;
  board : list (list bool);
  mines_found : gset Cell
}.

(** The two loops of [__init__] that build the field without mines. *)
Definition empty_board (h w : Z) : list (list bool) :=
  (λ _, (λ _, false) <$> range 0 w) <$> range 0 h.

(** [random.randrange(n)], computed from a raw number of the source: some
    integer from 0 to [n - 1], and [ValueError] when there is none. *)
Definition randrange (n : Z) (raw : Z) : outcome Z :=
  if decide (0 < n) then Return (raw mod n) else Raises ValueError.

(** The loop [while len(self.mines) != mines], which uses two raw numbers
    of the source on every turn. *)
Fixpoint place (target : Z) (draws : list (Z * Z)) (g : t) : outcome t :=
  if decide (Z.of_nat (size (mines g)) = target) then Return g
  else
    match draws with
    | [] => Raises NoMoreDraws
    | (r1, r2) :: draws' =>
        and_then (randrange (height g) r1) (λ i,
        and_then (randrange (width g) r2) (λ j,
        and_then (get2 (board g) (i, j)) (λ b,
          if negb b then
            and_then (set2 (board g) (i, j) true) (λ board',
              place target draws'
                {| height := height g; width := width g;
                   mines := mines g ∪ {[(i, j)]};
                   board := board'; mines_found := mines_found g |})
          else place target draws' g)))
    end.

(** [Minesweeper(height, width, mines)]. *)
Definition init (h w n : Z) (draws : list (Z * Z)) : outcome t :=
  place n draws
    {| height := h; width := w; mines := ∅; board := empty_board h w;
       mines_found := ∅ |}.

Definition is_mine (g : t) (cell : Cell) : outcome bool :=
  get2 (board g) cell.

(** Body of the double loop of [nearby_mines]; an exception ends it. *)
Definition nearby_step (g : t) (cell : Cell) (count : outcome Z) (ij : Cell)
  : outcome Z :=
  and_then count (λ count,
    if decide (ij = cell) then Return count
    else if decide ((0 ≤ ij.1 ∧ ij.1 < height g) ∧ (0 ≤ ij.2 ∧ ij.2 < width g))
    then and_then (get2 (board g) ij) (λ b,
           Return (if b then count + 1 else count))
    else Return count).

Definition nearby_mines (g : t) (cell : Cell) : outcome Z :=
  foldl (λ count i,
           foldl (λ count j, nearby_step g cell count (i, j)) count
                 (range (cell.2 - 1) (cell.2 + 2)))
        (Return 0)
        (range (cell.1 - 1) (cell.1 + 2)).

Definition won (g : t) : bool := bool_decide (mines_found g = mines g).

(** The field has [height] rows of [width] cells, and holds [True] exactly
    at the cells of [mines], which are cells of the board. *)
Definition consistent (g : t) : Prop :=
  length (board g) = Z.to_nat (height g)
  ∧ Forall (λ row, length row = Z.to_nat (width g)) (board g)
  ∧ (∀ c, in_bounds (height g) (width g) c →
          get2 (board g) c = Return (bool_decide (c ∈ mines g)))
  ∧ (∀ c, c ∈ mines g → in_bounds (height g) (width g) c).

End Minesweeper.

(** ** The model on small inputs *)

Example known_mines_all :
  Sentence.known_mines (Sentence.init {[ (0, 0); (0, 1) ]} 2)
  = {[ (0, 0); (0, 1) ]}.
Proof. by vm_compute. Qed.

Example known_safes_all :
  Sentence.known_safes (Sentence.init {[ (0, 0); (0, 1) ]} 0)
  = {[ (0, 0); (0, 1) ]}.
Proof. by vm_compute. Qed.

Example known_nothing :
  Sentence.known_mines (Sentence.init {[ (0, 0); (0, 1) ]} 1) = ∅
  ∧ Sentence.known_safes (Sentence.init {[ (0, 0); (0, 1) ]} 1) = ∅.
Proof. split; by vm_compute. Qed.

(** A zero in the corner of a 4 by 4 board marks its three neighbours. *)
Example corner_zero :
  ∃ ai, add_knowledge (MinesweeperAI_init 4 4) (0, 0) 0 = Ok ai
        ∧ safes ai = {[ (0, 0); (0, 1); (1, 0); (1, 1) ]}
        ∧ mines ai = ∅ ∧ knowledge ai = [].
Proof. eexists. repeat split; by vm_compute. Qed.

(** [remove] on a list without the sentence raises. *)
Example remove_absent :
  list_remove (Sentence.init ∅ 0) [Sentence.init {[ (0, 0) ]} 1]
  = Raise ValueError.
Proof. by vm_compute. Qed.

(** The sweep skips the element that follows a removed one. *)
Example sweep_skips :
  remove_empty [Sentence.init ∅ 0; Sentence.init ∅ 0; Sentence.init ∅ 0]
  = Ok [Sentence.init ∅ 0].
Proof. by vm_compute. Qed.

(** ** The error monad and [list.remove] *)

Lemma bind_Ok {A B} (m : res A) (f : A → res B) (b : B) :
  m ≫= f = Ok b → ∃ a, m = Ok a ∧ f a = Ok b.
Proof. destruct m as [a|e]; simpl; [eauto | discriminate]. Qed.

Lemma list_remove_ok (x : Sentence) (l : list Sentence) :
  x ∈ l → ∃ l', list_remove x l = Ok l' ∧ l ≡ₚ x :: l'.
Proof.
  induction l as [|y l IH]; intros Hin; [by apply elem_of_nil in Hin|].
  simpl. destruct (decide (y = x)) as [->|Hne].
  - eexists. split; [reflexivity | done].
  - apply elem_of_cons in Hin as [->|Hin]; [done|].
    destruct (IH Hin) as (l' & -> & Hp). simpl.
    eexists. split; [reflexivity|].
    rewrite Hp. apply Permutation_swap.
Qed.

Lemma list_remove_inv (x : Sentence) (l l' : list Sentence) :
  list_remove x l = Ok l' → l ≡ₚ x :: l'.
Proof.
  revert l'. induction l as [|y l IH]; intros l'; simpl; [discriminate|].
  destruct (decide (y = x)) as [->|Hne].
  - intros [= ->]. done.
  - intros H. apply bind_Ok in H as (l'' & Hr & [= <-]).
    rewrite (IH _ Hr). apply Permutation_swap.
Qed.

Lemma list_remove_raises (x : Sentence) (l : list Sentence) :
  x ∉ l → list_remove x l = Raise ValueError.
Proof.
  induction l as [|y l IH]; intros Hn; simpl; [done|].
  apply not_elem_of_cons in Hn as [Hne Hn].
  destruct (decide (y = x)); [congruence|]. by rewrite IH.
Qed.

(** ** [Sentence]: the subset test and the measures *)

Lemma is_subset_true (a b : Sentence) :
  Sentence.is_subset a b = true ↔ cells a ⊂ cells b.
Proof.
  unfold Sentence.is_subset.
  rewrite andb_true_iff, !bool_decide_eq_true.
  split.
  - intros [Hne Hsub]. split; [done|]. intros Hba. apply Hne. set_solver.
  - intros [Hsub Hn]. split; [|done]. intros Heq. apply Hn. by rewrite Heq.
Qed.

Lemma infer_cells (a b : Sentence) :
  cells (Sentence.infer_new_sentance a b) = cells b ∖ cells a.
Proof. reflexivity. Qed.

Lemma infer_count (a b : Sentence) :
  count (Sentence.infer_new_sentance a b) = count b - count a.
Proof. reflexivity. Qed.

Lemma total_cells_cons s k :
  total_cells (s :: k) = (size (cells s) + total_cells k)%nat.
Proof. reflexivity. Qed.

Lemma total_cells_app k1 k2 :
  total_cells (k1 ++ k2) = (total_cells k1 + total_cells k2)%nat.
Proof. apply sum_list_with_app. Qed.

#[global] Instance total_cells_perm : Proper ((≡ₚ) ==> (=)) total_cells.
Proof. intros k1 k2 Hp. unfold total_cells. by rewrite Hp. Qed.

#[global] Instance empties_perm : Proper ((≡ₚ) ==> (=)) empties.
Proof. intros k1 k2 Hp. unfold empties. by rewrite Hp. Qed.

Lemma empties_cons s k :
  empties (s :: k)
  = ((if decide (cells s = ∅) then 1 else 0) + empties k)%nat.
Proof.
  unfold empties. rewrite filter_cons. by destruct (decide (cells s = ∅)).
Qed.

Lemma empties_app k1 k2 : empties (k1 ++ k2) = (empties k1 + empties k2)%nat.
Proof. unfold empties. by rewrite list.filter_app, length_app. Qed.

Lemma empties_le_length k : (empties k ≤ length k)%nat.
Proof. apply length_filter. Qed.

Lemma empties_0 k : empties k = 0%nat ↔ Forall (λ s, cells s ≠ ∅) k.
Proof.
  induction k as [|s k IH]; [by split; [constructor|]|].
  rewrite empties_cons, list.Forall_cons.
  destruct (decide (cells s = ∅)) as [He|Hne]; split.
  - lia.
  - intros [? _]. done.
  - intros H. split; [done|]. apply IH. lia.
  - intros [_ H]. apply IH in H. lia.
Qed.

(** ** The subsetting step *)

Lemma resolution_length s1 k k' : resolution s1 k k' → length k' = length k.
Proof.
  intros (s2 & _ & _ & Hp). apply Permutation_length in Hp.
  rewrite length_app in Hp. simpl in Hp. lia.
Qed.

Lemma resolution_total s1 k k' :
  resolution s1 k k' →
  (total_cells k' + size (cells s1))%nat = total_cells k.
Proof.
  intros (s2 & _ & Hs & Hp). apply is_subset_true in Hs. destruct Hs as [Hsub _].
  apply total_cells_perm in Hp.
  rewrite total_cells_app, total_cells_cons in Hp.
  unfold total_cells at 2 in Hp. simpl in Hp.
  rewrite (size_difference _ _ Hsub) in Hp.
  apply subseteq_size in Hsub. lia.
Qed.

Lemma resolution_empties s1 k k' : resolution s1 k k' → empties k' = empties k.
Proof.
  intros (s2 & _ & Hs & Hp). apply is_subset_true in Hs.
  destruct Hs as [Hsub Hn].
  apply empties_perm in Hp.
  rewrite empties_app, !empties_cons in Hp. simpl in Hp.
  destruct (decide (cells s2 ∖ cells s1 = ∅)) as [He|_].
  { exfalso. apply Hn. set_solver. }
  destruct (decide (cells s2 = ∅)) as [He|_].
  { exfalso. apply Hn. rewrite He. set_solver. }
  unfold empties in Hp at 2. simpl in Hp. lia.
Qed.

Lemma resolution_Forall (Q : Sentence → Prop) s1 k k' :
  closed Q → Q s1 → resolution s1 k k' → Forall Q k → Forall Q k'.
Proof.
  intros HQ H1 (s2 & Hin & Hs & Hp) Hk.
  assert (Forall Q (s2 :: k')) as Hk'.
  { rewrite <- Hp. apply Forall_app. split; [done|].
    apply Forall_singleton. apply HQ; [done| |done].
    by eapply list.Forall_forall in Hk. }
  by apply list.Forall_cons in Hk' as [_ ?].
Qed.

Lemma resolve_inner_ok s1 k s2 :
  s2 ∈ k →
  ∃ k', resolve_inner s1 k s2 = Ok k'
        ∧ (Sentence.is_subset s1 s2 = false ∧ k' = k
           ∨ Sentence.is_subset s1 s2 = true
             ∧ k ++ [Sentence.infer_new_sentance s1 s2] ≡ₚ s2 :: k').
Proof.
  intros Hin. unfold resolve_inner.
  destruct (Sentence.is_subset s1 s2) eqn:Hs; [|eauto].
  destruct (list_remove_ok s2 (k ++ [Sentence.infer_new_sentance s1 s2]))
    as (k' & Hr & Hp); [set_solver|].
  exists k'. split; [done|]. right. by split.
Qed.

(** The inner loop over a copy that is still contained in the list. *)
Lemma inner_loop_ok S s1 copy k :
  s1 ∈ S → copy ⊆+ k →
  ∃ k', foldM (resolve_inner s1) copy k = Ok k'
        ∧ rtc (resolution_from S) k k'
        ∧ (k' = k ∧ Forall (λ s2, Sentence.is_subset s1 s2 = false) copy
           ∨ tc (resolution_from S) k k').
Proof.
  intros HS. revert k. induction copy as [|s2 copy IH]; intros k Hsub; simpl.
  { exists k. split; [done|]. split; [done|]. left. by split. }
  apply submseteq_cons_l in Hsub as (k0 & Hk & Hsub).
  assert (s2 ∈ k) as Hin by (rewrite Hk; set_solver).
  destruct (resolve_inner_ok s1 k s2 Hin) as (k1 & -> & [[Hs ->]|[Hs Hp]]); simpl.
  - destruct (IH k) as (k' & -> & Hr & Hd).
    { rewrite Hk. by apply submseteq_cons. }
    exists k'. split; [done|]. split; [done|].
    destruct Hd as [[-> Hall]|Ht]; [left|by right].
    split; [done|]. by constructor.
  - assert (resolution_from S k k1) as Hstep by (exists s1; split; [done|by exists s2]).
    destruct (IH k1) as (k' & -> & Hr & _).
    { rewrite Hk in Hp. simpl in Hp. apply Permutation_cons_inv in Hp.
      rewrite <- Hp. by apply submseteq_inserts_r. }
    exists k'. split; [done|]. split; [by eapply rtc_l|].
    right. eapply tc_rtc_r; [by apply tc_once|done].
Qed.

Lemma outer_loop_ok S outer k :
  outer ⊆ S →
  ∃ k', foldM resolve_outer outer k = Ok k'
        ∧ rtc (resolution_from S) k k'
        ∧ (k' = k
           ∧ Forall (λ s1, Forall (λ s2, Sentence.is_subset s1 s2 = false) k)
                    outer
           ∨ tc (resolution_from S) k k').
Proof.
  revert k. induction outer as [|s1 outer IH]; intros k Hsub; simpl.
  { exists k. split; [done|]. split; [done|]. left. by split. }
  assert (s1 ∈ S) as Hin by set_solver.
  assert (outer ⊆ S) as Hsub' by set_solver.
  destruct (inner_loop_ok S s1 k k Hin) as (k1 & Hk1 & Hr & Hd); [done|].
  change (resolve_outer k s1 = Ok k1) in Hk1. rewrite Hk1. simpl.
  destruct (IH k1 Hsub') as (k' & Hk' & Hr' & Hd'). rewrite Hk'.
  exists k'. split; [done|].
  split; [by etrans|].
  destruct Hd as [[-> Hall]|Ht].
  - destruct Hd' as [[-> Hall']|Ht']; [left|by right].
    split; [done|]. by constructor.
  - right. by eapply tc_rtc_r.
Qed.

Lemma no_firing_inference (outer k : list Sentence) :
  Forall (λ s1, Forall (λ s2, Sentence.is_subset s1 s2 = false) k) outer →
  flat_map (λ s1,
    flat_map (λ s2,
      if Sentence.is_subset s1 s2
      then [Sentence.infer_new_sentance s1 s2] else []) k) outer = [].
Proof.
  induction 1 as [|s1 outer H1 _ IH]; [done|].
  simpl. rewrite IH, app_nil_r. clear -H1.
  induction H1 as [|s2 l Hs _ IH]; [done|]. simpl. by rewrite Hs.
Qed.

(** The whole subsetting step returns, and is a sequence of firings whose
    first sentences come from the list as it was at the start. *)
Lemma resolve_pass_ok (ai : MinesweeperAI) :
  ∃ k', resolve_pass (knowledge ai) = Ok k'
        ∧ rtc (resolution_from (knowledge ai)) (knowledge ai) k'
        ∧ (k' = knowledge ai ∧ inference_1 ai = []
           ∨ tc (resolution_from (knowledge ai)) (knowledge ai) k').
Proof.
  destruct (outer_loop_ok (knowledge ai) (knowledge ai) (knowledge ai))
    as (k' & Hk & Hr & Hd); [done|].
  exists k'. split; [done|]. split; [done|].
  destruct Hd as [[-> Hall]|Ht]; [left|by right].
  split; [done|]. by apply no_firing_inference.
Qed.

Lemma size_nonempty (X : gset Cell) : X ≠ ∅ ↔ size X ≠ 0%nat.
Proof.
  rewrite size_non_empty_iff. split; intros H Heq; apply H.
  - by apply leibniz_equiv.
  - by rewrite Heq.
Qed.

Lemma chain_measures S k k' :
  rtc (resolution_from S) k k' →
  length k' = length k ∧ empties k' = empties k
  ∧ (total_cells k' ≤ total_cells k)%nat.
Proof.
  induction 1 as [k|k k1 k' (s1 & _ & Hstep) _ (Hl & He & Ht)]; [done|].
  rewrite Hl, He.
  rewrite (resolution_length _ _ _ Hstep), (resolution_empties _ _ _ Hstep).
  pose proof (resolution_total _ _ _ Hstep). repeat split; lia.
Qed.

Lemma chain_Forall (Q : Sentence → Prop) S k k' :
  closed Q → Forall Q S →
  rtc (resolution_from S) k k' → Forall Q k → Forall Q k'.
Proof.
  intros HQ HS. induction 1 as [k|k k1 k' (s1 & Hin & Hstep) _ IH]; [done|].
  intros Hk. apply IH. eapply resolution_Forall; [done| |done|done].
  by eapply list.Forall_forall in HS.
Qed.

(** With no empty sentence among the first sentences, every firing
    removes at least one cell from the list. *)
Lemma chain_progress S k k' :
  Forall (λ s, cells s ≠ ∅) S →
  tc (resolution_from S) k k' → (total_cells k' < total_cells k)%nat.
Proof.
  intros HS Ht. apply tc_nsteps in Ht as (n & Hn & Hst).
  destruct Hst as [|n k k1 k' (s1 & Hin & Hstep) Hrest]; [lia|].
  apply rtc_nsteps_2 in Hrest. apply chain_measures in Hrest as (_ & _ & Hle).
  pose proof (resolution_total _ _ _ Hstep) as Htot.
  eapply list.Forall_forall in HS; [|done].
  apply size_nonempty in HS. lia.
Qed.

Lemma resolve_pass_derivable k k' :
  rtc (resolution_from k) k k' → derivable k k'.
Proof. intros Hr Q HQ Hk. by eapply chain_Forall. Qed.

(** ** The marking step *)

Lemma sentence_mark_safe_in s c :
  c ∈ cells s →
  Sentence.mark_safe s c = {| cells := cells s ∖ {[c]}; count := count s |}.
Proof. intros. unfold Sentence.mark_safe. by rewrite decide_True. Qed.

Lemma sentence_mark_safe_notin s c :
  c ∉ cells s → Sentence.mark_safe s c = s.
Proof. intros. unfold Sentence.mark_safe. by rewrite decide_False. Qed.

Lemma sentence_mark_mine_in s c :
  c ∈ cells s →
  Sentence.mark_mine s c
  = {| cells := cells s ∖ {[c]}; count := count s - 1 |}.
Proof. intros. unfold Sentence.mark_mine. by rewrite decide_True. Qed.

Lemma sentence_mark_mine_notin s c :
  c ∉ cells s → Sentence.mark_mine s c = s.
Proof. intros. unfold Sentence.mark_mine. by rewrite decide_False. Qed.

Lemma size_remove (X : gset Cell) c :
  c ∈ X → S (size (X ∖ {[c]})) = size X.
Proof.
  intros Hin. rewrite size_difference by set_solver.
  rewrite size_singleton.
  assert (size X ≠ 0)%nat; [|lia].
  apply size_nonempty. set_solver.
Qed.

Lemma sentence_mark_safe_cells s c :
  cells (Sentence.mark_safe s c) = cells s ∖ {[c]}.
Proof.
  destruct (decide (c ∈ cells s)).
  - by rewrite sentence_mark_safe_in.
  - rewrite sentence_mark_safe_notin by done. set_solver.
Qed.

Lemma sentence_mark_mine_cells s c :
  cells (Sentence.mark_mine s c) = cells s ∖ {[c]}.
Proof.
  destruct (decide (c ∈ cells s)).
  - by rewrite sentence_mark_mine_in.
  - rewrite sentence_mark_mine_notin by done. set_solver.
Qed.

(** A map over the list that only removes cells: the total does not grow,
    and it falls when some sentence loses a cell. *)
Lemma total_cells_fmap_le (f : Sentence → Sentence) k :
  (∀ s, cells (f s) ⊆ cells s) →
  (total_cells (f <$> k) ≤ total_cells k)%nat.
Proof.
  intros Hf. induction k as [|s k IH]; [done|].
  rewrite fmap_cons, !total_cells_cons.
  pose proof (subseteq_size _ _ (Hf s)). lia.
Qed.

Lemma total_cells_fmap_lt (f : Sentence → Sentence) k s :
  (∀ s, cells (f s) ⊆ cells s) →
  s ∈ k → cells (f s) ⊂ cells s →
  (total_cells (f <$> k) < total_cells k)%nat.
Proof.
  intros Hf Hin Hlt. induction k as [|s' k IH]; [by apply elem_of_nil in Hin|].
  rewrite fmap_cons, !total_cells_cons.
  apply elem_of_cons in Hin as [<-|Hin].
  - pose proof (subset_size _ _ Hlt).
    pose proof (total_cells_fmap_le f k Hf). lia.
  - pose proof (subseteq_size _ _ (Hf s')). specialize (IH Hin). lia.
Qed.

Lemma mark_step_length ai ai' :
  mark_step ai ai' → length (knowledge ai') = length (knowledge ai).
Proof. destruct 1; simpl; by rewrite length_fmap. Qed.

Lemma mark_step_total ai ai' :
  mark_step ai ai' →
  (total_cells (knowledge ai') < total_cells (knowledge ai))%nat.
Proof.
  destruct 1 as [ai s c Hin _ Hc|ai s c Hin _ Hc]; simpl.
  - apply (total_cells_fmap_lt _ _ s); [|done|].
    + intros s'. rewrite sentence_mark_safe_cells. set_solver.
    + rewrite sentence_mark_safe_cells. set_solver.
  - apply (total_cells_fmap_lt _ _ s); [|done|].
    + intros s'. rewrite sentence_mark_mine_cells. set_solver.
    + rewrite sentence_mark_mine_cells. set_solver.
Qed.

Lemma mark_steps_measures ai ai' :
  rtc mark_step ai ai' →
  length (knowledge ai') = length (knowledge ai)
  ∧ (total_cells (knowledge ai') ≤ total_cells (knowledge ai))%nat.
Proof.
  induction 1 as [ai|ai ai1 ai' Hstep _ [Hl Ht]]; [done|].
  rewrite Hl, (mark_step_length _ _ Hstep).
  pose proof (mark_step_total _ _ Hstep). split; [done|lia].
Qed.

Lemma mark_steps_progress ai ai' :
  tc mark_step ai ai' →
  (total_cells (knowledge ai') < total_cells (knowledge ai))%nat.
Proof.
  intros Ht. apply tc_nsteps in Ht as (n & Hn & Hst).
  destruct Hst as [|n ai ai1 ai' Hstep Hrest]; [lia|].
  apply rtc_nsteps_2, mark_steps_measures in Hrest as [_ Hle].
  pose proof (mark_step_total _ _ Hstep). lia.
Qed.

(** The two marking loops on one sentence, in closed form. *)
Lemma fold_mark_mine (l : list Cell) s :
  foldl Sentence.mark_mine s l
  = {| cells := cells s ∖ list_to_set l;
       count := count s - Z.of_nat (size (cells s ∩ list_to_set l)) |}.
Proof.
  revert s. induction l as [|c l IH]; intros s; simpl.
  { destruct s as [cs n]. simpl. f_equal; [set_solver|].
    replace (cs ∩ ∅) with (∅ : gset Cell) by set_solver.
    rewrite size_empty. lia. }
  rewrite IH. destruct (decide (c ∈ cells s)) as [Hc|Hc].
  - rewrite sentence_mark_mine_in by done. simpl. f_equal; [set_solver|].
    replace (cells s ∩ ({[c]} ∪ list_to_set l))
      with ({[c]} ∪ (cells s ∖ {[c]}) ∩ list_to_set l).
    2:{ apply set_eq. intros x. destruct (decide (x = c)); set_solver. }
    pose proof (size_union (C:=gset Cell) {[c]}
                  ((cells s ∖ {[c]}) ∩ list_to_set l)) as Hsz.
    rewrite Hsz by set_solver. rewrite size_singleton. lia.
  - rewrite sentence_mark_mine_notin by done. f_equal; [set_solver|].
    do 3 f_equal. set_solver.
Qed.

Lemma fold_mark_safe (l : list Cell) s :
  foldl Sentence.mark_safe s l
  = {| cells := cells s ∖ list_to_set l; count := count s |}.
Proof.
  revert s. induction l as [|c l IH]; intros s; simpl.
  { destruct s as [cs n]. simpl. f_equal. set_solver. }
  rewrite IH. destruct (decide (c ∈ cells s)) as [Hc|Hc].
  - rewrite sentence_mark_safe_in by done. simpl. f_equal. set_solver.
  - rewrite sentence_mark_safe_notin by done. f_equal. set_solver.
Qed.

(** Marking the cells of a list one after the other gives a state that
    depends on the set of the cells only: the order in which Python
    iterates over a set of cells does not show in the marking loops. *)
Lemma foldl_mark_safe_eq (l : list Cell) ai :
  foldl mark_safe ai l
  = {| height := height ai; width := width ai; moves_made := moves_made ai;
       mines := mines ai; safes := safes ai ∪ list_to_set l;
       knowledge := (λ s, {| cells := cells s ∖ list_to_set l;
                             count := count s |}) <$> knowledge ai |}.
Proof.
  revert ai. induction l as [|c l IH]; intros ai.
  - destruct ai as [h w mv mn sf k]. simpl. f_equal; [set_solver|].
    rewrite <- (list_fmap_id k) at 1. apply list_fmap_ext.
    intros _ [cs n] _. simpl. f_equal. set_solver.
  - cbn [foldl]. rewrite IH. simpl. f_equal; [set_solver|].
    rewrite <- list_fmap_compose. apply list_fmap_ext.
    intros _ s _. simpl. rewrite sentence_mark_safe_cells.
    f_equal; [set_solver|].
    unfold Sentence.mark_safe. by destruct (decide _).
Qed.

Lemma foldl_mark_mine_eq (l : list Cell) ai :
  foldl mark_mine ai l
  = {| height := height ai; width := width ai; moves_made := moves_made ai;
       mines := mines ai ∪ list_to_set l; safes := safes ai;
       knowledge := (λ s, foldl Sentence.mark_mine s l) <$> knowledge ai |}.
Proof.
  revert ai. induction l as [|c l IH]; intros ai.
  - destruct ai as [h w mv mn sf k]. simpl. f_equal; [set_solver|].
    by rewrite list_fmap_id.
  - cbn [foldl]. rewrite IH. simpl. f_equal; [set_solver|].
    by rewrite <- list_fmap_compose.
Qed.

Lemma marking_order_irrelevant (l l' : list Cell) ai :
  l ≡ₚ l' →
  foldl mark_safe ai l = foldl mark_safe ai l'
  ∧ foldl mark_mine ai l = foldl mark_mine ai l'.
Proof.
  intros Hp.
  assert (list_to_set l = (list_to_set l' : gset Cell)) as Hset.
  { apply set_eq. intros c. rewrite !elem_of_list_to_set. by rewrite Hp. }
  split.
  - by rewrite !foldl_mark_safe_eq, Hset.
  - rewrite !foldl_mark_mine_eq, Hset. f_equal.
    apply list_fmap_ext. intros _ s _. by rewrite !fold_mark_mine, Hset.
Qed.

(** The loop [for cell in sentence.known_safes().copy()]: every marking is
    justified by the sentence itself, which keeps count 0 while it loses
    its cells. *)
Lemma mark_safe_fold_steps (l : list Cell) ai s :
  s ∈ knowledge ai → count s = 0 → (∀ c, c ∈ l → c ∈ cells s) → NoDup l →
  rtc mark_step ai (foldl mark_safe ai l)
  ∧ (l ≠ [] → tc mark_step ai (foldl mark_safe ai l)).
Proof.
  revert ai s. induction l as [|c l IH]; intros ai s Hin H0 Hl Hnd; [done|].
  simpl. apply list.NoDup_cons in Hnd as [Hc Hnd].
  assert (c ∈ cells s) as Hcs by (apply Hl; set_solver).
  assert (mark_step ai (mark_safe ai c)) as Hstep by (by eapply step_safe).
  destruct (IH (mark_safe ai c) (Sentence.mark_safe s c)) as [Hr _]; [| | |done|].
  - simpl. apply list_elem_of_fmap. by exists s.
  - by rewrite sentence_mark_safe_in.
  - intros c' Hc'. rewrite sentence_mark_safe_cells.
    apply elem_of_difference. split; [apply Hl; set_solver|].
    intros ->%elem_of_singleton. done.
  - split; [by eapply rtc_l|]. intros _.
    eapply tc_rtc_r; [by apply tc_once|done].
Qed.

Lemma mark_mine_fold_steps (l : list Cell) ai s :
  s ∈ knowledge ai → Z.of_nat (size (cells s)) = count s →
  (∀ c, c ∈ l → c ∈ cells s) → NoDup l →
  rtc mark_step ai (foldl mark_mine ai l)
  ∧ (l ≠ [] → tc mark_step ai (foldl mark_mine ai l)).
Proof.
  revert ai s. induction l as [|c l IH]; intros ai s Hin H0 Hl Hnd; [done|].
  simpl. apply list.NoDup_cons in Hnd as [Hc Hnd].
  assert (c ∈ cells s) as Hcs by (apply Hl; set_solver).
  assert (mark_step ai (mark_mine ai c)) as Hstep by (by eapply step_mine).
  destruct (IH (mark_mine ai c) (Sentence.mark_mine s c)) as [Hr _]; [| | |done|].
  - simpl. apply list_elem_of_fmap. by exists s.
  - rewrite sentence_mark_mine_in by done. simpl.
    pose proof (size_remove _ _ Hcs). lia.
  - intros c' Hc'. rewrite sentence_mark_mine_cells.
    apply elem_of_difference. split; [apply Hl; set_solver|].
    intros ->%elem_of_singleton. done.
  - split; [by eapply rtc_l|]. intros _.
    eapply tc_rtc_r; [by apply tc_once|done].
Qed.

Lemma elements_nonempty (X : gset Cell) : X ≠ ∅ → elements X ≠ [].
Proof.
  intros Hne He. apply Hne. apply leibniz_equiv. by apply elements_empty_inv.
Qed.

Lemma known_safes_steps ai s :
  s ∈ knowledge ai →
  let ai' := foldl mark_safe ai (elements (Sentence.known_safes s)) in
  rtc mark_step ai ai'
  ∧ (Sentence.known_safes s ≠ ∅ → tc mark_step ai ai').
Proof.
  intros Hin. simpl. unfold Sentence.known_safes.
  destruct (decide (count s = 0)) as [H0|_].
  - destruct (mark_safe_fold_steps (elements (cells s)) ai s) as [Hr Ht];
      [done|done| |apply NoDup_elements|].
    { intros c. by rewrite elem_of_elements. }
    split; [done|]. intros Hne. by apply Ht, elements_nonempty.
  - rewrite elements_empty. done.
Qed.

Lemma known_mines_steps ai s :
  s ∈ knowledge ai →
  let ai' := foldl mark_mine ai (elements (Sentence.known_mines s)) in
  rtc mark_step ai ai'
  ∧ (Sentence.known_mines s ≠ ∅ → tc mark_step ai ai').
Proof.
  intros Hin. simpl. unfold Sentence.known_mines.
  destruct (decide (Z.of_nat (size (cells s)) = count s)) as [H0|_].
  - destruct (mark_mine_fold_steps (elements (cells s)) ai s) as [Hr Ht];
      [done|done| |apply NoDup_elements|].
    { intros c. by rewrite elem_of_elements. }
    split; [done|]. intros Hne. by apply Ht, elements_nonempty.
  - rewrite elements_empty. done.
Qed.

(** One sentence of the marking loop. *)
Lemma mark_at_steps ai i :
  rtc mark_step ai (mark_at ai i)
  ∧ (∀ s, knowledge ai !! i = Some s →
          Sentence.known_safes s ≠ ∅ ∨ Sentence.known_mines s ≠ ∅ →
          tc mark_step ai (mark_at ai i)).
Proof.
  unfold mark_at. destruct (knowledge ai !! i) as [s|] eqn:Hi; [|done].
  assert (s ∈ knowledge ai) as Hin by (by eapply list_elem_of_lookup_2).
  destruct (known_safes_steps ai s Hin) as [Hr1 Ht1]. simpl in Hr1, Ht1.
  set (ai1 := foldl mark_safe ai (elements (Sentence.known_safes s))) in *.
  assert (rtc mark_step ai1
            match knowledge ai1 !! i with
            | Some s' => foldl mark_mine ai1 (elements (Sentence.known_mines s'))
            | None => ai1
            end) as Hr2.
  { destruct (knowledge ai1 !! i) as [s'|] eqn:Hi'; [|done].
    apply known_mines_steps. by eapply list_elem_of_lookup_2. }
  split; [by etrans|].
  intros s0 [= <-] [Hs|Hm].
  - eapply tc_rtc_r; [by apply Ht1|done].
  - destruct (decide (Sentence.known_safes s = ∅)) as [He|Hne].
    + subst ai1. rewrite He, elements_empty in *. simpl in *.
      rewrite Hi. by apply known_mines_steps.
    + eapply tc_rtc_r; [by apply Ht1|done].
Qed.

Lemma mark_steps_same ai ai' :
  rtc mark_step ai ai' → ai' = ai ∨ tc mark_step ai ai'.
Proof. intros [->|?]%rtc_tc; auto. Qed.

Lemma mark_loop_steps (idx : list nat) ai :
  rtc mark_step ai (foldl mark_at ai idx)
  ∧ (∀ i s, i ∈ idx → knowledge ai !! i = Some s →
            Sentence.known_safes s ≠ ∅ ∨ Sentence.known_mines s ≠ ∅ →
            tc mark_step ai (foldl mark_at ai idx)).
Proof.
  revert ai. induction idx as [|j idx IH]; intros ai; simpl.
  { split; [done|]. intros i s Hi. by apply elem_of_nil in Hi. }
  destruct (mark_at_steps ai j) as [Hr1 Ht1].
  destruct (IH (mark_at ai j)) as [Hr2 Ht2].
  split; [by etrans|].
  intros i s Hi Hs Hk.
  destruct (mark_steps_same _ _ Hr1) as [Heq|Ht]; [|by eapply tc_rtc_r].
  apply elem_of_cons in Hi as [->|Hi].
  - eapply tc_rtc_r; [by eapply Ht1|done].
  - eapply tc_rtc_l; [done|]. apply (Ht2 i s); [done| |done]. by rewrite Heq.
Qed.

(** The marking step: a sequence of justified markings, not empty when
    some sentence of the list has known safes or known mines. *)
Lemma mark_pass_steps ai :
  rtc mark_step ai (mark_pass ai)
  ∧ (truthy (inference_2 ai) || truthy (inference_3 ai) = true →
     tc mark_step ai (mark_pass ai)).
Proof.
  unfold mark_pass.
  destruct (mark_loop_steps (seq 0 (length (knowledge ai))) ai) as [Hr Ht].
  split; [done|]. intros Hc.
  assert (∃ s, s ∈ knowledge ai
               ∧ (Sentence.known_safes s ≠ ∅ ∨ Sentence.known_mines s ≠ ∅))
    as (s & Hin & Hs).
  { apply orb_true_iff in Hc as [Hc|Hc].
    - unfold inference_2 in Hc.
      destruct (filter _ _) as [|s l] eqn:Hf; [done|].
      assert (s ∈ filter (λ s, Sentence.known_safes s ≠ ∅) (knowledge ai))
        as Hin by (rewrite Hf; set_solver).
      apply list_elem_of_filter in Hin as [? ?]. eauto.
    - unfold inference_3 in Hc.
      destruct (filter _ _) as [|s l] eqn:Hf; [done|].
      assert (s ∈ filter (λ s, Sentence.known_mines s ≠ ∅) (knowledge ai))
        as Hin by (rewrite Hf; set_solver).
      apply list_elem_of_filter in Hin as [? ?]. eauto. }
  apply list_elem_of_lookup in Hin as [i Hi].
  apply (Ht i s); [|done|done].
  apply elem_of_seq. apply lookup_lt_Some in Hi. lia.
Qed.

(** ** Removing the empty sentences *)

Lemma drop_empty_measures k k' :
  drop_empty k k' →
  length k = S (length k') ∧ empties k = S (empties k')
  ∧ total_cells k' = total_cells k.
Proof.
  intros (s & He & Hp). rewrite Hp, empties_cons, total_cells_cons.
  rewrite decide_True by done. rewrite He, size_empty. done.
Qed.

Lemma drop_empty_Forall (Q : Sentence → Prop) k k' :
  drop_empty k k' → Forall Q k → Forall Q k'.
Proof.
  intros (s & _ & Hp) Hk. rewrite Hp in Hk.
  by apply list.Forall_cons in Hk as [_ ?].
Qed.

Lemma drops_measures k k' :
  rtc drop_empty k k' →
  (length k' ≤ length k)%nat ∧ (empties k' ≤ empties k)%nat
  ∧ total_cells k' = total_cells k.
Proof.
  induction 1 as [k|k k1 k' Hstep _ (Hl & He & Ht)]; [done|].
  apply drop_empty_measures in Hstep as (Hl1 & He1 & Ht1).
  repeat split; [lia|lia|congruence].
Qed.

Lemma drops_progress k k' :
  tc drop_empty k k' → (empties k' < empties k)%nat.
Proof.
  intros Ht. apply tc_nsteps in Ht as (n & Hn & Hst).
  destruct Hst as [|n k k1 k' Hstep Hrest]; [lia|].
  apply rtc_nsteps_2, drops_measures in Hrest as (_ & He & _).
  apply drop_empty_measures in Hstep as (_ & He1 & _). lia.
Qed.

Lemma drops_derivable k k' : rtc drop_empty k k' → derivable k k'.
Proof.
  intros Hr Q _. induction Hr as [k|k k1 k' Hstep _ IH]; [done|].
  intros Hk. apply IH. by eapply drop_empty_Forall.
Qed.

(** The sweep returns: [remove] is always called on an element of the
    list.  It removes an empty sentence as soon as it meets one. *)
Lemma sweep_steps fuel i k :
  ∃ k', sweep fuel i k = Ok k'
        ∧ rtc drop_empty k k'
        ∧ (∀ j s, (i ≤ j < i + fuel)%nat → k !! j = Some s → cells s = ∅ →
                  tc drop_empty k k').
Proof.
  revert i k. induction fuel as [|fuel IH]; intros i k; simpl.
  { exists k. split; [done|]. split; [done|]. intros j s Hj. lia. }
  destruct (k !! i) as [s|] eqn:Hi.
  - destruct (decide (cells s = ∅)) as [He|Hne].
    + destruct (list_remove_ok s k) as (k1 & -> & Hp).
      { by eapply list_elem_of_lookup_2. }
      simpl. destruct (IH (S i) k1) as (k' & -> & Hr & _).
      assert (drop_empty k k1) as Hstep by (by exists s).
      exists k'. split; [done|]. split; [by eapply rtc_l|].
      intros _ _ _ _ _. eapply tc_rtc_r; [by apply tc_once|done].
    + destruct (IH (S i) k) as (k' & -> & Hr & Ht).
      exists k'. split; [done|]. split; [done|].
      intros j s' Hj Hjs He.
      destruct (decide (j = i)) as [->|Hji]; [congruence|].
      apply (Ht j s'); [lia|done|done].
  - exists k. split; [done|]. split; [done|].
    intros j s' Hj Hjs _. apply lookup_ge_None in Hi.
    apply lookup_lt_Some in Hjs. lia.
Qed.

(** The budget [length k] of [remove_empty] is never the reason why the
    sweep stops: one more unit of budget changes nothing. *)
Lemma sweep_budget fuel i k :
  (length k ≤ i + fuel)%nat → sweep (S fuel) i k = sweep fuel i k.
Proof.
  revert i k. induction fuel as [|fuel IH]; intros i k Hlen.
  { simpl. rewrite (proj2 (lookup_ge_None k i)) by lia. done. }
  change (sweep (S (S fuel)) i k) with
    (match k !! i with
     | None => Ok k
     | Some sentence =>
         if decide (cells sentence = ∅)
         then list_remove sentence k ≫= sweep (S fuel) (S i)
         else sweep (S fuel) (S i) k
     end).
  change (sweep (S fuel) i k) with
    (match k !! i with
     | None => Ok k
     | Some sentence =>
         if decide (cells sentence = ∅)
         then list_remove sentence k ≫= sweep fuel (S i)
         else sweep fuel (S i) k
     end).
  destruct (k !! i) as [s|]; [|done].
  destruct (decide (cells s = ∅)) as [He|Hne].
  - destruct (list_remove s k) as [k1|err] eqn:Hr; [|done]. simpl.
    apply list_remove_inv, Permutation_length in Hr. simpl in Hr.
    apply IH. lia.
  - apply IH. lia.
Qed.

Lemma remove_empty_steps k :
  ∃ k', remove_empty k = Ok k'
        ∧ rtc drop_empty k k'
        ∧ (empties k ≠ 0%nat → tc drop_empty k k').
Proof.
  unfold remove_empty.
  destruct (sweep_steps (length k) 0 k) as (k' & Hk & Hr & Ht).
  exists k'. split; [done|]. split; [done|]. intros He.
  assert (∃ s, s ∈ k ∧ cells s = ∅) as (s & Hin & Hs).
  { unfold empties in He. destruct (filter _ k) as [|s l] eqn:Hf; [done|].
    assert (s ∈ filter (λ s, cells s = ∅) k) as Hin by (rewrite Hf; set_solver).
    apply list_elem_of_filter in Hin as [? ?]. eauto. }
  apply list_elem_of_lookup in Hin as [j Hj].
  apply (Ht j s); [|done|done]. apply lookup_lt_Some in Hj. lia.
Qed.

(** ** One pass of the loop *)

(** The body never raises, and is made of the three kinds of steps. *)
Lemma loop_body_ok ai :
  ∃ k1 ai2 k3,
    loop_body ai = Ok (set_knowledge ai2 k3)
    ∧ rtc (resolution_from (knowledge ai)) (knowledge ai) k1
    ∧ (k1 = knowledge ai ∧ inference_1 ai = []
       ∨ tc (resolution_from (knowledge ai)) (knowledge ai) k1)
    ∧ rtc mark_step (set_knowledge ai k1) ai2
    ∧ (truthy (inference_2 (set_knowledge ai k1))
       || truthy (inference_3 (set_knowledge ai k1)) = true →
       tc mark_step (set_knowledge ai k1) ai2)
    ∧ rtc drop_empty (knowledge ai2) k3
    ∧ (empties (knowledge ai2) ≠ 0%nat → tc drop_empty (knowledge ai2) k3).
Proof.
  unfold loop_body.
  destruct (resolve_pass_ok ai) as (k1 & -> & Hr1 & Hd1). simpl.
  destruct (mark_pass_steps (set_knowledge ai k1)) as [Hr2 Ht2].
  destruct (remove_empty_steps (knowledge (mark_pass (set_knowledge ai k1))))
    as (k3 & -> & Hr3 & Ht3). simpl.
  exists k1, (mark_pass (set_knowledge ai k1)), k3. done.
Qed.

Lemma set_knowledge_id ai : set_knowledge ai (knowledge ai) = ai.
Proof. by destruct ai. Qed.

(** Every pass entered with a true condition makes the measure fall: cells
    leave the sentences, or else an empty sentence leaves the list. *)
Lemma loop_body_decreases N ai :
  loop_cond ai = true → (length (knowledge ai) ≤ N)%nat →
  ∃ ai', loop_body ai = Ok ai'
         ∧ (length (knowledge ai') ≤ N)%nat
         ∧ (measure N (knowledge ai') < measure N (knowledge ai))%nat.
Proof.
  intros Hc HN.
  destruct (loop_body_ok ai)
    as (k1 & ai2 & k3 & Hb & Hr1 & Hd1 & Hr2 & Ht2 & Hr3 & Ht3).
  exists (set_knowledge ai2 k3). split; [done|]. simpl.
  destruct (chain_measures _ _ _ Hr1) as (Hl1 & He1 & Hle1).
  destruct (mark_steps_measures _ _ Hr2) as (Hl2 & Hle2). simpl in Hl2, Hle2.
  destruct (drops_measures _ _ Hr3) as (Hl3 & He3 & Heq3).
  pose proof (empties_le_length k3) as Hb3.
  split; [lia|]. unfold measure. rewrite Heq3.
  destruct (decide (total_cells (knowledge ai2) < total_cells (knowledge ai))%nat)
    as [Hlt|Hge]; [nia|].
  assert (total_cells (knowledge ai2) = total_cells (knowledge ai)) as Heq by lia.
  rewrite Heq.
  assert (ai2 = set_knowledge ai k1) as ->.
  { destruct (mark_steps_same _ _ Hr2) as [?|Ht]; [done|].
    apply mark_steps_progress in Ht. simpl in Ht. lia. }
  simpl in *.
  destruct (decide (empties (knowledge ai) = 0%nat)) as [He0|Hne0].
  - exfalso. destruct Hd1 as [[-> Hi1]|Ht].
    + rewrite set_knowledge_id in Ht2.
      unfold loop_cond in Hc. rewrite Hi1 in Hc. simpl in Hc.
      apply Ht2, mark_steps_progress in Hc. lia.
    + apply chain_progress in Ht; [lia|]. by apply empties_0.
  - assert (empties k1 ≠ 0%nat) as Hne1 by lia.
    apply Ht3, drops_progress in Hne1. lia.
Qed.

(** ** The [while] loop *)

Lemma while_loop_enough fuel N ai :
  (length (knowledge ai) ≤ N)%nat → (measure N (knowledge ai) ≤ fuel)%nat →
  ∃ ai', while_loop fuel ai = Ok ai' ∧ loop_cond ai' = false.
Proof.
  revert ai. induction fuel as [|fuel IH]; intros ai HN Hm.
  - simpl. destruct (loop_cond ai) eqn:Hc; [|eauto].
    destruct (loop_body_decreases N ai Hc HN) as (ai' & _ & _ & Hlt). lia.
  - simpl. destruct (loop_cond ai) eqn:Hc; [|eauto].
    destruct (loop_body_decreases N ai Hc HN) as (ai' & -> & HN' & Hlt).
    simpl. apply IH; [done|lia].
Qed.

(** More budget than needed gives the same result. *)
Lemma while_loop_mono fuel fuel' ai ai' :
  while_loop fuel ai = Ok ai' → (fuel ≤ fuel')%nat →
  while_loop fuel' ai = Ok ai'.
Proof.
  revert fuel' ai. induction fuel as [|fuel IH]; intros fuel' ai.
  - simpl. destruct (loop_cond ai) eqn:Hc; [done|].
    intros H _. destruct fuel'; simpl; by rewrite Hc.
  - simpl. destruct (loop_cond ai) eqn:Hc.
    + intros H Hle. destruct fuel' as [|fuel']; [lia|]. simpl. rewrite Hc.
      apply bind_Ok in H as (ai1 & -> & H). simpl. apply IH; [done|lia].
    + intros H _. destruct fuel'; simpl; by rewrite Hc.
Qed.

Lemma loop_body_preserves (I : MinesweeperAI → Prop) ai ai' :
  preserved I → I ai → loop_body ai = Ok ai' → I ai'.
Proof.
  intros [Hk Hm] HI Hb.
  destruct (loop_body_ok ai)
    as (k1 & ai2 & k3 & Hb' & Hr1 & _ & Hr2 & _ & Hr3 & _).
  rewrite Hb in Hb'. injection Hb' as ->.
  apply Hk; [|by apply drops_derivable].
  assert (I (set_knowledge ai k1)) as HI1.
  { apply Hk; [done|]. by apply resolve_pass_derivable. }
  clear -Hm HI1 Hr2. induction Hr2; eauto.
Qed.

Lemma while_loop_preserves (I : MinesweeperAI → Prop) fuel ai ai' :
  preserved I → I ai → while_loop fuel ai = Ok ai' →
  I ai' ∧ loop_cond ai' = false.
Proof.
  intros HP. revert ai. induction fuel as [|fuel IH]; intros ai HI; simpl.
  - destruct (loop_cond ai) eqn:Hc; [done|]. by intros [= <-].
  - destruct (loop_cond ai) eqn:Hc; [|by intros [= <-]].
    intros H. apply bind_Ok in H as (ai1 & Hb & H).
    apply (IH ai1); [|done]. by eapply loop_body_preserves.
Qed.

(** [add_knowledge] returns for every state and every observation, and
    its result does not depend on the budget once this is large enough. *)
Lemma add_knowledge_ok ai cell n :
  ∃ ai', add_knowledge ai cell n = Ok ai'
         ∧ loop_cond ai' = false
         ∧ ∀ fuel, (passes_bound (observe ai cell n) ≤ fuel)%nat →
                   add_knowledge_fuel fuel ai cell n = Ok ai'.
Proof.
  unfold add_knowledge, add_knowledge_fuel.
  set (ai1 := observe ai cell n).
  destruct (while_loop_enough (passes_bound ai1) (length (knowledge ai1)) ai1)
    as (ai' & Hw & Hc); [done|done|].
  exists ai'. split; [done|]. split; [done|].
  intros fuel Hle. by eapply while_loop_mono.
Qed.

Lemma add_knowledge_preserves (I : MinesweeperAI → Prop) ai cell n :
  preserved I → I (observe ai cell n) →
  ∃ ai', add_knowledge ai cell n = Ok ai' ∧ I ai'.
Proof.
  intros HP HI. destruct (add_knowledge_ok ai cell n) as (ai' & Ha & _).
  exists ai'. split; [done|].
  unfold add_knowledge in Ha. by eapply while_loop_preserves.
Qed.

(** ** The first part of [add_knowledge] *)

Lemma elem_of_range x a b : x ∈ range a b ↔ a ≤ x ∧ x < b.
Proof. unfold range. rewrite elem_of_seqZ. lia. Qed.

Lemma sentence_mark_safe_idem s c :
  Sentence.mark_safe (Sentence.mark_safe s c) c = Sentence.mark_safe s c.
Proof.
  apply sentence_mark_safe_notin. rewrite sentence_mark_safe_cells. set_solver.
Qed.

Lemma mark_safe_add_move_idem ai c :
  mark_safe (add_move (mark_safe (add_move ai c) c) c) c
  = mark_safe (add_move ai c) c.
Proof.
  unfold mark_safe, add_move. simpl. f_equal.
  - set_solver.
  - set_solver.
  - rewrite <- list_fmap_compose. apply list_fmap_ext.
    intros i s _. apply sentence_mark_safe_idem.
Qed.

(** The double loop is one loop over the pairs in row-major order. *)
Lemma nested_foldl {St} (f : St → Cell → St) (rows cols : list Z) (st : St) :
  foldl (λ st i, foldl (λ st j, f st (i, j)) st cols) st rows
  = foldl f st (i ← rows; (λ j, (i, j)) <$> cols).
Proof.
  revert st. induction rows as [|i rows IH]; intros st; [done|].
  simpl. rewrite foldl_app, <- IH. f_equal.
  clear. revert st. induction cols as [|j cols IH]; intros st; [done|].
  simpl. apply IH.
Qed.

Lemma scan_fold cell ai (l : list Cell) :
  foldl (scan_cell cell) (ai, ∅) l
  = (if decide (cell ∈ l) then mark_safe (add_move ai cell) cell else ai,
     list_to_set l ∖ {[cell]}).
Proof.
  induction l as [|ij l IH] using rev_ind.
  { cbn [foldl]. destruct (decide (cell ∈ [])) as [H|_].
    - by apply elem_of_nil in H.
    - f_equal. set_solver. }
  rewrite foldl_app, IH. cbn [foldl]. unfold scan_cell. cbn [fst snd].
  assert (cell ∈ l ++ [ij] ↔ cell ∈ l ∨ ij = cell) as Hiff by set_solver.
  destruct (decide (ij = cell)) as [->|Hne];
    destruct (decide (cell ∈ l)) as [Hl|Hl];
    destruct (decide (cell ∈ l ++ _)) as [Hl'|Hl'];
    try (exfalso; tauto); f_equal; try set_solver.
  apply mark_safe_add_move_idem.
Qed.

Lemma elem_of_pairs (rows cols : list Z) (c : Cell) :
  c ∈ (i ← rows; (λ j, (i, j)) <$> cols) ↔ c.1 ∈ rows ∧ c.2 ∈ cols.
Proof.
  rewrite list_elem_of_bind. destruct c as [i j]. simpl. split.
  - intros (i' & Hc & Hi). apply list_elem_of_fmap in Hc as (j' & [= -> ->] & Hj).
    done.
  - intros [Hi Hj]. exists i. split; [|done].
    apply list_elem_of_fmap. by exists j.
Qed.

(** The loop bounds of the source select exactly the in-bounds
    8-neighbours, and reach the cell itself when it is on the board. *)
Lemma scan_neighbours_eq ai cell :
  scan_neighbours ai cell
  = (if decide (in_bounds (height ai) (width ai) cell)
     then mark_safe (add_move ai cell) cell else ai,
     neighbours8 (height ai) (width ai) cell).
Proof.
  unfold scan_neighbours. rewrite (nested_foldl (scan_cell cell)), scan_fold.
  destruct cell as [ci cj]. simpl. f_equal.
  - destruct (decide _) as [Hin|Hn]; destruct (decide _) as [Hb|Hnb]; try done.
    + exfalso. apply Hnb. apply elem_of_pairs in Hin as [Hi Hj]. simpl in *.
      apply elem_of_range in Hi, Hj. unfold in_bounds. simpl. lia.
    + exfalso. apply Hn. apply elem_of_pairs. simpl.
      rewrite !elem_of_range. unfold in_bounds in Hb. simpl in Hb. lia.
  - apply set_eq. intros [i j]. unfold neighbours8.
    rewrite elem_of_difference, !elem_of_list_to_set, elem_of_pairs.
    rewrite list_elem_of_filter, !elem_of_range, elem_of_singleton.
    unfold in_bounds. simpl. rewrite !elem_of_cons, elem_of_nil.
    split.
    + intros [[Hi Hj] Hne].
      assert (i = ci - 1 ∨ i = ci ∨ i = ci + 1) as Hi' by lia.
      assert (j = cj - 1 ∨ j = cj ∨ j = cj + 1) as Hj' by lia.
      split; [lia|].
      destruct Hi' as [ -> | [ -> | -> ] ]; destruct Hj' as [ -> | [ -> | -> ] ];
        try (exfalso; by apply Hne); tauto.
    + intros [Hb Hor].
      assert ((i = ci - 1 ∨ i = ci ∨ i = ci + 1)
              ∧ (j = cj - 1 ∨ j = cj ∨ j = cj + 1)
              ∧ ¬ (i = ci ∧ j = cj)) as (Hi & Hj & Hne).
      { repeat destruct Hor as [ [= -> ->] | Hor ]; lia. }
      split; [lia|]. intros [= -> ->]. lia.
Qed.

Lemma observation_sentence_eq ai nb n :
  observation_sentence ai nb n
  = {| cells := nb ∖ (safes ai ∪ mines ai);
       count := n - Z.of_nat (size (nb ∩ mines ai)) |}.
Proof.
  unfold observation_sentence. rewrite fold_mark_mine, fold_mark_safe. simpl.
  rewrite !list_to_set_elements_L. f_equal. set_solver.
Qed.

Lemma cell_not_neighbour h w c : c ∉ neighbours8 h w c.
Proof.
  unfold neighbours8. rewrite elem_of_list_to_set, list_elem_of_filter.
  rewrite !elem_of_cons, elem_of_nil. destruct c as [i j]. simpl.
  intros [_ Hor].
  repeat (destruct Hor as [Heq|Hor]; [inversion Heq; lia|]). done.
Qed.

Lemma neighbours8_in_bounds h w c c' :
  c' ∈ neighbours8 h w c → in_bounds h w c'.
Proof.
  unfold neighbours8. rewrite elem_of_list_to_set, list_elem_of_filter. tauto.
Qed.

(** The state in which the [while] loop is entered. *)
Lemma observe_eq ai cell n :
  let N := neighbours8 (height ai) (width ai) cell in
  let ai1 := if decide (in_bounds (height ai) (width ai) cell)
             then mark_safe (add_move ai cell) cell else ai in
  observe ai cell n
  = set_knowledge ai1
      (knowledge ai1
       ++ [ {| cells := N ∖ (safes ai ∪ mines ai);
               count := n - Z.of_nat (size (N ∩ mines ai)) |} ]).
Proof.
  simpl. unfold observe. rewrite scan_neighbours_eq. simpl.
  rewrite observation_sentence_eq.
  pose proof (cell_not_neighbour (height ai) (width ai) cell).
  destruct (decide _); simpl; do 4 f_equal. set_solver.
Qed.

(** ** Invariants of the loop *)

Lemma preserved_and (I J : MinesweeperAI → Prop) :
  preserved I → preserved J → preserved (λ ai, I ai ∧ J ai).
Proof.
  intros [Ik Im] [Jk Jm]. split.
  - intros ai k' [? ?] ?. split; eauto.
  - intros ai ai' [? ?] ?. split; eauto.
Qed.

Lemma mark_step_fields ai ai' :
  mark_step ai ai' →
  height ai' = height ai ∧ width ai' = width ai
  ∧ moves_made ai' = moves_made ai
  ∧ safes ai ⊆ safes ai' ∧ mines ai ⊆ mines ai'.
Proof. destruct 1; simpl; repeat split; set_solver. Qed.

Lemma preserved_board h w :
  preserved (λ ai, height ai = h ∧ width ai = w).
Proof.
  split; [done|]. intros ai ai' [<- <-] Hstep.
  apply mark_step_fields in Hstep. tauto.
Qed.

(** *** Soundness *)

Lemma sound_sentence_closed M : closed (sound_sentence M).
Proof.
  intros a b Ha Hb Hs. apply is_subset_true in Hs. destruct Hs as [Hsub _].
  unfold sound_sentence in *. rewrite infer_cells, infer_count, <- Ha, <- Hb.
  replace ((cells b ∖ cells a) ∩ M)
    with ((cells b ∩ M) ∖ (cells a ∩ M)) by set_solver.
  assert (cells a ∩ M ⊆ cells b ∩ M) as Hsub' by set_solver.
  pose proof (size_difference (C:=gset Cell) _ _ Hsub') as Hsz.
  apply subseteq_size in Hsub'. lia.
Qed.

Lemma sound_sentence_mark_safe M s c :
  c ∉ M → sound_sentence M s → sound_sentence M (Sentence.mark_safe s c).
Proof.
  intros Hc Hs. unfold sound_sentence, Sentence.mark_safe.
  destruct (decide (c ∈ cells s)); [|done]. simpl.
  replace ((cells s ∖ {[c]}) ∩ M) with (cells s ∩ M) by set_solver. done.
Qed.

Lemma sound_sentence_mark_mine M s c :
  c ∈ M → sound_sentence M s → sound_sentence M (Sentence.mark_mine s c).
Proof.
  intros Hc Hs. unfold sound_sentence, Sentence.mark_mine.
  destruct (decide (c ∈ cells s)) as [Hcs|]; [|done]. simpl.
  replace ((cells s ∖ {[c]}) ∩ M) with ((cells s ∩ M) ∖ {[c]}) by set_solver.
  assert (c ∈ cells s ∩ M) as Hin by set_solver.
  pose proof (size_remove _ _ Hin). unfold sound_sentence in Hs. lia.
Qed.

Lemma sound_mark_safe M ai c : c ∉ M → sound M ai → sound M (mark_safe ai c).
Proof.
  intros Hc (Hk & Hs & Hm). split; [|split]; simpl; [|set_solver|done].
  apply Forall_fmap. eapply list.Forall_impl; [done|].
  intros s. by apply sound_sentence_mark_safe.
Qed.

Lemma sound_mark_mine M ai c : c ∈ M → sound M ai → sound M (mark_mine ai c).
Proof.
  intros Hc (Hk & Hs & Hm). split; [|split]; simpl; [|done|set_solver].
  apply Forall_fmap. eapply list.Forall_impl; [done|].
  intros s. by apply sound_sentence_mark_mine.
Qed.

(** The two trivial rules are sound: a true sentence of count 0 has no
    mine, a true sentence with as many cells as its count has only mines. *)
Lemma sound_known_safe M s c :
  sound_sentence M s → count s = 0 → c ∈ cells s → c ∉ M.
Proof.
  unfold sound_sentence. intros Hs H0 Hc Hm.
  assert (size (cells s ∩ M) ≠ 0%nat); [|lia].
  apply size_nonempty. set_solver.
Qed.

Lemma sound_known_mine M s c :
  sound_sentence M s → Z.of_nat (size (cells s)) = count s →
  c ∈ cells s → c ∈ M.
Proof.
  unfold sound_sentence. intros Hs Hn Hc.
  assert (cells s ∩ M = cells s) as Heq.
  { apply set_subseteq_size_eq; [set_solver|lia]. }
  set_solver.
Qed.

Lemma preserved_sound M : preserved (sound M).
Proof.
  split.
  - intros ai k' (Hk & Hs & Hm) Hd. split; [|split]; simpl; [|done|done].
    apply Hd; [apply sound_sentence_closed|done].
  - intros ai ai' Hsound Hstep. pose proof Hsound as (Hk & _ & _).
    destruct Hstep as [ai s c Hin H0 Hc|ai s c Hin Hn Hc].
    + apply sound_mark_safe; [|done].
      eapply sound_known_safe; [|done|done]. by eapply list.Forall_forall in Hk.
    + apply sound_mark_mine; [|done].
      eapply sound_known_mine; [|done|done]. by eapply list.Forall_forall in Hk.
Qed.

(** A truthful observation keeps the state sound up to the loop. *)
Lemma observe_sound M ai cell n :
  sound M ai → truthful (height ai) (width ai) M (cell, n) →
  sound M (observe ai cell n).
Proof.
  intros Hsound [Hc Hn]. simpl in Hc, Hn.
  rewrite observe_eq. cbv zeta.
  set (N := neighbours8 (height ai) (width ai) cell) in *.
  set (ai1 := if decide (in_bounds (height ai) (width ai) cell)
              then mark_safe (add_move ai cell) cell else ai).
  assert (sound M ai1) as (Hk1 & Hs1 & Hm1).
  { subst ai1. destruct (decide _); [|done].
    apply sound_mark_safe; [done|]. exact Hsound. }
  destruct Hsound as (_ & Hs & Hm).
  split; [|split]; simpl; [|done|done].
  apply Forall_app. split; [done|]. apply Forall_singleton.
  unfold sound_sentence. simpl. rewrite Hn.
  assert (N ∩ M = (N ∩ mines ai) ∪ (N ∖ (safes ai ∪ mines ai)) ∩ M) as Heq.
  { apply set_eq. intros x. destruct (decide (x ∈ mines ai)); set_solver. }
  rewrite Heq.
  pose proof (size_union (C:=gset Cell) (N ∩ mines ai)
                ((N ∖ (safes ai ∪ mines ai)) ∩ M)) as Hsz.
  rewrite Hsz by set_solver. lia.
Qed.

Lemma observe_board ai cell n :
  height (observe ai cell n) = height ai ∧ width (observe ai cell n) = width ai.
Proof. rewrite observe_eq. cbv zeta. simpl. by destruct (decide _). Qed.

Lemma add_knowledge_sound M ai cell n :
  sound M ai → truthful (height ai) (width ai) M (cell, n) →
  ∃ ai', add_knowledge ai cell n = Ok ai'
         ∧ (height ai' = height ai ∧ width ai' = width ai) ∧ sound M ai'.
Proof.
  intros Hs Ht.
  apply (add_knowledge_preserves
           (λ ai', (height ai' = height ai ∧ width ai' = width ai) ∧ sound M ai')).
  - apply preserved_and; [apply preserved_board|apply preserved_sound].
  - split; [apply observe_board|by apply observe_sound].
Qed.

Lemma play_sound M obs ai :
  sound M ai → Forall (truthful (height ai) (width ai) M) obs →
  ∃ ai', play ai obs = Ok ai' ∧ sound M ai'.
Proof.
  revert ai. induction obs as [|[cell n] obs IH]; intros ai Hs Hobs; simpl.
  { eauto. }
  apply list.Forall_cons in Hobs as [Ht Hobs].
  destruct (add_knowledge_sound M ai cell n Hs Ht) as (ai1 & -> & [Hh Hw] & Hs1).
  simpl. apply IH; [done|]. by rewrite Hh, Hw.
Qed.

(** C1. Soundness of the knowledge base.  Take any mine assignment [M] and
    feed [add_knowledge], from the empty knowledge base of an [h] by [w]
    board, observations that are all truthful for [M] (the cell is not a
    mine, the count is the number of its in-bounds 8-neighbours that are
    mines).  Then every call returns, and after every call (after every
    prefix [take i obs] of the observations) each sentence of the knowledge
    list has exactly [count] mines among its cells, no cell of [safes] is a
    mine and every cell of [mines] is one. *)
Theorem knowledge_base_sound (h w : Z) (M : gset Cell) (obs : list (Cell * Z)) :
  Forall (truthful h w M) obs →
  ∀ i, ∃ ai, play (MinesweeperAI_init h w) (take i obs) = Ok ai
             ∧ Forall (λ s, Z.of_nat (size (cells s ∩ M)) = count s)
                      (knowledge ai)
             ∧ (∀ c, c ∈ safes ai → c ∉ M)
             ∧ (∀ c, c ∈ mines ai → c ∈ M).
Proof.
  intros Hobs i.
  destruct (play_sound M (take i obs) (MinesweeperAI_init h w)) as (ai & Hp & Hk & Hs & Hm).
  - split; [|split]; simpl; [constructor|set_solver|set_solver].
  - simpl. by apply Forall_take.
  - exists ai. split; [done|]. split; [done|]. split; set_solver.
Qed.

Lemma truthful_game_2x2 :
  Forall (truthful 2 2 {[ (1, 1) ]}) [((0, 0), 1); ((0, 1), 1); ((1, 0), 1)].
Proof.
  repeat constructor; simpl; try (by vm_compute);
    intros ->%elem_of_singleton; discriminate.
Qed.

Lemma knowledge_base_sound_witness :
  Forall (truthful 2 2 {[ (1, 1) ]}) [((0, 0), 1); ((0, 1), 1); ((1, 0), 1)]
  ∧ ∃ ai, play (MinesweeperAI_init 2 2) (take 3 [((0, 0), 1); ((0, 1), 1); ((1, 0), 1)])
          = Ok ai
          ∧ Forall (λ s, Z.of_nat (size (cells s ∩ {[ (1, 1) ]})) = count s)
                   (knowledge ai)
          ∧ (∀ c, c ∈ safes ai → c ∉ ({[ (1, 1) ]} : gset Cell))
          ∧ (∀ c, c ∈ mines ai → c ∈ ({[ (1, 1) ]} : gset Cell)).
Proof.
  split; [exact truthful_game_2x2|].
  apply (knowledge_base_sound 2 2 {[ (1, 1) ]}
           [((0, 0), 1); ((0, 1), 1); ((1, 0), 1)] truthful_game_2x2 3%nat).
Defined.

(** C2. Termination of the fixpoint loop.  For every state of the
    knowledge base (any board size, any sets, any knowledge list) and every
    observation, [add_knowledge] returns: there is a number of passes such
    that with any budget of at least that many passes the loop ends
    normally, without any exception of [list.remove], in a state where the
    loop condition is false. *)
Theorem add_knowledge_terminates (ai : MinesweeperAI) (cell : Cell) (n : Z) :
  ∃ (passes : nat) (ai' : MinesweeperAI),
    (∀ fuel, (passes ≤ fuel)%nat →
             add_knowledge_fuel fuel ai cell n = Ok ai')
    ∧ add_knowledge ai cell n = Ok ai'
    ∧ loop_cond ai' = false.
Proof.
  destruct (add_knowledge_ok ai cell n) as (ai' & Ha & Hc & Hf).
  exists (passes_bound (observe ai cell n)), ai'. done.
Qed.

(** C6. Subset resolution.  [is_subset] holds exactly for a proper subset
    of cells, so it is false when the cell sets are equal; and when it
    holds, [infer_new_sentance] is the sentence over the difference of the
    cells with the difference of the counts. *)
Theorem subset_resolution_correct (A B : Sentence) :
  (Sentence.is_subset A B = true ↔ cells A ⊆ cells B ∧ cells A ≠ cells B)
  ∧ (cells A = cells B → Sentence.is_subset A B = false)
  ∧ (Sentence.is_subset A B = true →
     Sentence.infer_new_sentance A B
     = {| cells := cells B ∖ cells A; count := count B - count A |}).
Proof.
  split; [|split].
  - unfold Sentence.is_subset.
    rewrite andb_true_iff, !bool_decide_eq_true. tauto.
  - intros Heq. unfold Sentence.is_subset.
    rewrite (bool_decide_eq_false_2 (cells A ≠ cells B)); [done|]. tauto.
  - intros _. reflexivity.
Qed.

Lemma subset_resolution_correct_witness :
  let A := {| cells := {[ (0, 0); (0, 1); (0, 2) ]}; count := 1 |} in
  let B := {| cells := {[ (0, 0); (0, 1); (0, 2); (1, 0); (1, 1) ]};
              count := 2 |} in
  Sentence.is_subset A B = true
  ∧ Sentence.infer_new_sentance A B
    = {| cells := cells B ∖ cells A; count := count B - count A |}.
Proof.
  intros A B.
  assert (Sentence.is_subset A B = true) as Hs by (vm_compute; reflexivity).
  split; [exact Hs|].
  exact (proj2 (proj2 (subset_resolution_correct A B)) Hs).
Defined.

(** C7. Neighbour adjustment.  The sentence that [add_knowledge] builds
    for an observation and appends to the list ranges over the in-bounds
    8-neighbours of the cell that are neither known safe nor known mines,
    and its count is the observed count minus the number of neighbours that
    were known mines: [add_knowledge] is the [while] loop run from the
    state in which this sentence has been appended to the list, after the
    observed cell, when it is on the board, has been recorded as a move and
    marked safe.  On one sentence, marking a mine that occurs in it drops
    the cell and takes one off the count; marking a safe cell drops the
    cell and leaves the count. *)
Theorem observation_adjusts_neighbours (ai : MinesweeperAI) (cell : Cell) (n : Z) :
  let N := neighbours8 (height ai) (width ai) cell in
  let st := scan_neighbours ai cell in
  let new_sentence :=
    {| cells := N ∖ (safes ai ∪ mines ai);
       count := n - Z.of_nat (size (N ∩ mines ai)) |} in
  let ai1 := if decide (in_bounds (height ai) (width ai) cell)
             then mark_safe (add_move ai cell) cell else ai in
  let entry := set_knowledge ai1 (knowledge ai1 ++ [new_sentence]) in
  observation_sentence st.1 st.2 n = new_sentence
  ∧ list.last (knowledge (observe ai cell n)) = Some new_sentence
  ∧ add_knowledge ai cell n = while_loop (passes_bound entry) entry
  ∧ (∀ fuel, add_knowledge_fuel fuel ai cell n = while_loop fuel entry)
  ∧ (∀ s c, Sentence.mark_mine s c
            = {| cells := cells s ∖ {[c]};
                 count := count s - (if decide (c ∈ cells s) then 1 else 0) |})
  ∧ (∀ s c, Sentence.mark_safe s c
            = {| cells := cells s ∖ {[c]}; count := count s |}).
Proof.
  cbv zeta. split; [|split; [|split; [|split; [|split]]]].
  - pose proof (observe_eq ai cell n) as Ho. cbv zeta in Ho.
    unfold observe in Ho.
    apply (f_equal knowledge) in Ho. simpl in Ho.
    apply (f_equal list.last) in Ho. rewrite !list.last_snoc in Ho.
    by injection Ho.
  - rewrite observe_eq. cbv zeta. simpl. by rewrite list.last_snoc.
  - unfold add_knowledge. cbv zeta. by rewrite observe_eq.
  - intros fuel. unfold add_knowledge_fuel. by rewrite observe_eq.
  - intros s c. destruct (decide (c ∈ cells s)) as [Hc|Hc].
    + by rewrite sentence_mark_mine_in.
    + rewrite sentence_mark_mine_notin by done. destruct s as [cs k]. simpl.
      f_equal; [set_solver|lia].
  - intros s c. destruct (decide (c ∈ cells s)) as [Hc|Hc].
    + by rewrite sentence_mark_safe_in.
    + rewrite sentence_mark_safe_notin by done. destruct s as [cs k]. simpl.
      f_equal. set_solver.
Qed.

(** *** Growth of the fact sets *)

Lemma preserved_grow (X Y Z : gset Cell) :
  preserved (λ ai, X ⊆ moves_made ai ∧ Y ⊆ safes ai ∧ Z ⊆ mines ai).
Proof.
  split; [done|]. intros ai ai' (HX & HY & HZ) Hstep.
  apply mark_step_fields in Hstep as (_ & _ & -> & ? & ?).
  split; [done|]. split; set_solver.
Qed.

Lemma observe_grow ai cell n :
  moves_made ai ⊆ moves_made (observe ai cell n)
  ∧ safes ai ⊆ safes (observe ai cell n)
  ∧ mines ai ⊆ mines (observe ai cell n).
Proof.
  rewrite observe_eq. cbv zeta. destruct (decide _); simpl; set_solver.
Qed.

(** C9. Monotonic growth of the fact sets.  Every public operation,
    [add_knowledge], [mark_safe], [mark_mine] and the two queries, run
    from any state, returns a state whose [moves_made], [safes] and [mines]
    contain the sets of the state it started from. *)
Theorem fact_sets_grow (o : op) (ai : MinesweeperAI) :
  ∃ ai', run_op o ai = Ok ai'
         ∧ moves_made ai ⊆ moves_made ai'
         ∧ safes ai ⊆ safes ai'
         ∧ mines ai ⊆ mines ai'.
Proof.
  destruct o as [cell n|cell|cell| |]; simpl.
  - apply (add_knowledge_preserves
             (λ ai', moves_made ai ⊆ moves_made ai' ∧ safes ai ⊆ safes ai'
                     ∧ mines ai ⊆ mines ai')).
    + apply preserved_grow.
    + apply observe_grow.
  - eexists. split; [done|]. simpl. set_solver.
  - eexists. split; [done|]. simpl. set_solver.
  - by exists ai.
  - by exists ai.
Qed.

(** *** Marked cells are stripped from the sentences *)

Lemma stripped_mark_safe ai c : stripped ai → stripped (mark_safe ai c).
Proof.
  unfold stripped. intros Hk. simpl. apply Forall_fmap.
  eapply list.Forall_impl; [done|]. intros s Hs. simpl.
  rewrite sentence_mark_safe_cells. set_solver.
Qed.

Lemma stripped_mark_mine ai c : stripped ai → stripped (mark_mine ai c).
Proof.
  unfold stripped. intros Hk. simpl. apply Forall_fmap.
  eapply list.Forall_impl; [done|]. intros s Hs. simpl.
  rewrite sentence_mark_mine_cells. set_solver.
Qed.

Lemma absent_mark_safe ai c :
  Forall (λ s, c ∉ cells s) (knowledge (mark_safe ai c)).
Proof.
  simpl. apply Forall_fmap, Forall_true. intros s. simpl.
  rewrite sentence_mark_safe_cells. set_solver.
Qed.

Lemma absent_mark_mine ai c :
  Forall (λ s, c ∉ cells s) (knowledge (mark_mine ai c)).
Proof.
  simpl. apply Forall_fmap, Forall_true. intros s. simpl.
  rewrite sentence_mark_mine_cells. set_solver.
Qed.

Lemma preserved_stripped : preserved stripped.
Proof.
  split.
  - intros ai k' Hk Hd. unfold stripped in *. simpl.
    apply Hd; [|done]. intros a b _ Hb _. rewrite infer_cells. set_solver.
  - intros ai ai' Hs Hstep.
    destruct Hstep; [by apply stripped_mark_safe|by apply stripped_mark_mine].
Qed.

Lemma preserved_absent c :
  preserved (λ ai, Forall (λ s, c ∉ cells s) (knowledge ai)).
Proof.
  split.
  - intros ai k' Hk Hd. simpl.
    apply Hd; [|done]. intros a b _ Hb _. rewrite infer_cells. set_solver.
  - intros ai ai' Hk Hstep. destruct Hstep; simpl; apply Forall_fmap;
      (eapply list.Forall_impl; [done|]); intros s' Hs'; simpl.
    + rewrite sentence_mark_safe_cells. set_solver.
    + rewrite sentence_mark_mine_cells. set_solver.
Qed.

Lemma observe_stripped ai cell n : stripped ai → stripped (observe ai cell n).
Proof.
  intros Hs. rewrite observe_eq. cbv zeta.
  pose proof (cell_not_neighbour (height ai) (width ai) cell) as Hc.
  destruct (decide _).
  - apply (stripped_mark_safe (add_move ai cell) cell) in Hs as Hs1.
    unfold stripped in *. simpl in *. apply Forall_app. split; [done|].
    apply Forall_singleton. simpl. set_solver.
  - unfold stripped in *. simpl. apply Forall_app. split; [done|].
    apply Forall_singleton. simpl. set_solver.
Qed.

Lemma observe_absent ai cell n :
  in_bounds (height ai) (width ai) cell →
  Forall (λ s, cell ∉ cells s) (knowledge (observe ai cell n)).
Proof.
  intros Hb. rewrite observe_eq. cbv zeta.
  pose proof (cell_not_neighbour (height ai) (width ai) cell) as Hc.
  rewrite decide_True by done. simpl. apply Forall_app. split.
  - apply (absent_mark_safe (add_move ai cell) cell).
  - apply Forall_singleton. simpl. set_solver.
Qed.

(** Sentences over board cells stay so: the knowledge base built from the
    empty one by the public operations never mentions a cell off the
    board. *)
Lemma preserved_on_board h w :
  preserved (λ ai, (height ai = h ∧ width ai = w)
                   ∧ Forall (λ s, ∀ c, c ∈ cells s → in_bounds h w c)
                            (knowledge ai)).
Proof.
  apply preserved_and; [apply preserved_board|]. split.
  - intros ai k' Hk Hd. simpl.
    apply Hd; [|done]. intros a b _ Hb _ c. rewrite infer_cells. set_solver.
  - intros ai ai' Hk Hstep. destruct Hstep; simpl; apply Forall_fmap;
      (eapply list.Forall_impl; [done|]); intros s' Hs' c'; simpl.
    + rewrite sentence_mark_safe_cells. set_solver.
    + rewrite sentence_mark_mine_cells. set_solver.
Qed.

Lemma on_board_init h w : on_board (MinesweeperAI_init h w).
Proof. constructor. Qed.

Lemma on_board_marks ai c :
  on_board ai → on_board (mark_safe ai c) ∧ on_board (mark_mine ai c).
Proof.
  unfold on_board. intros Hk. simpl. split; apply Forall_fmap;
    (eapply list.Forall_impl; [done|]); intros s Hs c'; simpl.
  - rewrite sentence_mark_safe_cells. set_solver.
  - rewrite sentence_mark_mine_cells. set_solver.
Qed.

Lemma observe_on_board ai cell n : on_board ai → on_board (observe ai cell n).
Proof.
  intros Hk. destruct (observe_board ai cell n) as [Hh Hw].
  unfold on_board. rewrite Hh, Hw. rewrite observe_eq. cbv zeta.
  assert (∀ c, c ∈ neighbours8 (height ai) (width ai) cell ∖
                 (safes ai ∪ mines ai) →
               in_bounds (height ai) (width ai) c) as HN.
  { intros c [Hc _]%elem_of_difference. by eapply neighbours8_in_bounds. }
  destruct (decide _); simpl; apply Forall_app; split;
    try (by apply Forall_singleton).
  - by apply (on_board_marks (add_move ai cell) cell).
  - done.
Qed.

Lemma add_knowledge_on_board ai cell n :
  on_board ai →
  ∃ ai', add_knowledge ai cell n = Ok ai'
         ∧ (height ai' = height ai ∧ width ai' = width ai) ∧ on_board ai'.
Proof.
  intros Hk.
  destruct (add_knowledge_preserves _ ai cell n
              (preserved_on_board (height ai) (width ai)))
    as (ai' & Ha & [Hh Hw] & Hk').
  - split; [apply observe_board|].
    pose proof (observe_on_board ai cell n Hk) as Hk1. unfold on_board in Hk1.
    destruct (observe_board ai cell n) as [Hh Hw]. by rewrite Hh, Hw in Hk1.
  - exists ai'. split; [done|]. split; [done|].
    unfold on_board. by rewrite Hh, Hw.
Qed.

(** C10, as the code has it.  If no cell of [safes] or [mines] occurs in
    a sentence of the knowledge list, this is still so after [mark_safe],
    [mark_mine] and [add_knowledge]; the cell that [mark_safe] or
    [mark_mine] marks occurs in no sentence when the call returns; and the
    cell that [add_knowledge] observes occurs in no sentence when the call
    returns provided it is a cell of the board, which the double loop over
    the in-bounds cells reaches and marks, or the sentences mention board
    cells only, as they do in every state built from the empty knowledge
    base. *)
Theorem marked_cells_stripped (ai : MinesweeperAI) :
  stripped ai →
  (∀ c, stripped (mark_safe ai c)
        ∧ Forall (λ s, c ∉ cells s) (knowledge (mark_safe ai c)))
  ∧ (∀ c, stripped (mark_mine ai c)
          ∧ Forall (λ s, c ∉ cells s) (knowledge (mark_mine ai c)))
  ∧ (∀ cell n, ∃ ai', add_knowledge ai cell n = Ok ai'
                      ∧ stripped ai'
                      ∧ (in_bounds (height ai) (width ai) cell ∨ on_board ai →
                         Forall (λ s, cell ∉ cells s) (knowledge ai'))).
Proof.
  intros Hs. split; [|split].
  - intros c. split; [by apply stripped_mark_safe|apply absent_mark_safe].
  - intros c. split; [by apply stripped_mark_mine|apply absent_mark_mine].
  - intros cell n.
    destruct (add_knowledge_preserves stripped ai cell n) as (ai' & Ha & Hs');
      [apply preserved_stripped|by apply observe_stripped|].
    exists ai'. split; [done|]. split; [done|]. intros Hor.
    destruct (decide (in_bounds (height ai) (width ai) cell)) as [Hb|Hnb].
    + destruct (add_knowledge_preserves
                  (λ ai, Forall (λ s, cell ∉ cells s) (knowledge ai)) ai cell n)
        as (ai'' & Ha' & Habs);
        [apply preserved_absent|by apply observe_absent|].
      rewrite Ha in Ha'. by injection Ha' as <-.
    + destruct Hor as [?|Hon]; [done|].
      destruct (add_knowledge_on_board ai cell n Hon)
        as (ai'' & Ha' & [Hh Hw] & Hon').
      rewrite Ha in Ha'. injection Ha' as <-.
      unfold on_board in Hon'. rewrite Hh, Hw in Hon'.
      eapply list.Forall_impl; [done|]. intros s Hc Hin. simpl in *. auto.
Qed.

Lemma marked_cells_stripped_witness :
  let ai :=
    set_knowledge (mark_safe (MinesweeperAI_init 2 2) (0, 0))
      [ {| cells := {[ (0, 1); (1, 0); (1, 1) ]}; count := 1 |} ] in
  stripped ai
  ∧ (∀ c, stripped (mark_safe ai c)
          ∧ Forall (λ s, c ∉ cells s) (knowledge (mark_safe ai c)))
  ∧ (∀ c, stripped (mark_mine ai c)
          ∧ Forall (λ s, c ∉ cells s) (knowledge (mark_mine ai c)))
  ∧ (∀ cell n, ∃ ai', add_knowledge ai cell n = Ok ai'
                      ∧ stripped ai'
                      ∧ (in_bounds (height ai) (width ai) cell ∨ on_board ai →
                         Forall (λ s, cell ∉ cells s) (knowledge ai'))).
Proof.
  intros ai.
  assert (stripped ai) as Hs.
  { unfold stripped. simpl. repeat constructor. set_solver. }
  split; [exact Hs|]. exact (marked_cells_stripped ai Hs).
Defined.

(** A cell off the board that is observed stays in the sentences: on the 2
    by 2 board, with the single sentence "one mine among (5, 5) and
    (6, 6)" and no marked cell, [add_knowledge] of (5, 5) returns with
    (5, 5) still in that sentence. *)
Lemma observed_off_board_cell_stays :
  let ai :=
    set_knowledge (MinesweeperAI_init 2 2)
      [ {| cells := {[ (5, 5); (6, 6) ]}; count := 1 |} ] in
  stripped ai
  ∧ ∃ ai', add_knowledge ai (5, 5) 0 = Ok ai'
           ∧ knowledge ai' = [ {| cells := {[ (5, 5); (6, 6) ]}; count := 1 |} ]
           ∧ ¬ Forall (λ s, (5, 5) ∉ cells s) (knowledge ai').
Proof.
  intros ai. split.
  { unfold stripped. simpl. repeat constructor. set_solver. }
  eexists. split; [by vm_compute|]. split; [by vm_compute|].
  intros H. apply Forall_inv in H. apply H. simpl. set_solver.
Qed.

(** ** Construction and marking never fail *)



Lemma sentence_mark_safe_eq s c :
  Sentence.mark_safe s c = {| cells := cells s ∖ {[c]}; count := count s |}.
Proof.
  destruct (decide (c ∈ cells s)) as [Hc|Hc].
  - by rewrite sentence_mark_safe_in.
  - rewrite sentence_mark_safe_notin by done. destruct s as [cs k]. simpl.
    f_equal. set_solver.
Qed.

Lemma sentence_mark_mine_eq s c :
  Sentence.mark_mine s c
  = {| cells := cells s ∖ {[c]};
       count := count s - (if decide (c ∈ cells s) then 1 else 0) |}.
Proof.
  destruct (decide (c ∈ cells s)) as [Hc|Hc].
  - by rewrite sentence_mark_mine_in.
  - rewrite sentence_mark_mine_notin by done. destruct s as [cs k]. simpl.
    f_equal; [set_solver|lia].
Qed.

(** C4, as the code has it.  [mark_safe] and [mark_mine] return normally
    in every state; each adds the cell to its own set, leaves the other
    set and the moves as they are, and strips the cell from every sentence
    of the list ([mark_mine] taking one off the count of each sentence that
    held it), so that the cell is in no sentence afterwards and a cell
    already in the other set ends up in both. *)
Theorem mark_adds_to_own_set (ai : MinesweeperAI) (c : Cell) :
  (run_op (MarkSafe c) ai = Ok (mark_safe ai c)
   ∧ safes (mark_safe ai c) = safes ai ∪ {[c]}
   ∧ mines (mark_safe ai c) = mines ai
   ∧ moves_made (mark_safe ai c) = moves_made ai
   ∧ knowledge (mark_safe ai c)
     = (λ s, {| cells := cells s ∖ {[c]}; count := count s |})
         <$> knowledge ai
   ∧ Forall (λ s, c ∉ cells s) (knowledge (mark_safe ai c))
   ∧ mines ai ∩ {[c]}
     ⊆ safes (mark_safe ai c) ∩ mines (mark_safe ai c))
  ∧ (run_op (MarkMine c) ai = Ok (mark_mine ai c)
     ∧ mines (mark_mine ai c) = mines ai ∪ {[c]}
     ∧ safes (mark_mine ai c) = safes ai
     ∧ moves_made (mark_mine ai c) = moves_made ai
     ∧ knowledge (mark_mine ai c)
       = (λ s, {| cells := cells s ∖ {[c]};
                  count := count s
                           - (if decide (c ∈ cells s) then 1 else 0) |})
           <$> knowledge ai
     ∧ Forall (λ s, c ∉ cells s) (knowledge (mark_mine ai c))
     ∧ safes ai ∩ {[c]}
       ⊆ safes (mark_mine ai c) ∩ mines (mark_mine ai c)).
Proof.
  split.
  - split_and!; try done.
    + simpl. apply list_fmap_ext. intros _ s _. apply sentence_mark_safe_eq.
    + apply absent_mark_safe.
    + simpl. set_solver.
  - split_and!; try done.
    + simpl. apply list_fmap_ext. intros _ s _. apply sentence_mark_mine_eq.
    + apply absent_mark_mine.
    + simpl. set_solver.
Qed.

(** Marking safe a cell that is a known mine, and marking as a mine a cell
    that is known safe, both return with the cell in the two sets. *)
Lemma mark_into_both_sets :
  let ai := mark_mine (MinesweeperAI_init 1 1) (0, 0) in
  let ai0 := mark_safe (MinesweeperAI_init 1 1) (0, 0) in
  ((0, 0) ∈ mines ai
   ∧ ∃ ai', run_op (MarkSafe (0, 0)) ai = Ok ai'
            ∧ (0, 0) ∈ mines ai' ∧ (0, 0) ∈ safes ai')
  ∧ ((0, 0) ∈ safes ai0
     ∧ ∃ ai', run_op (MarkMine (0, 0)) ai0 = Ok ai'
              ∧ (0, 0) ∈ mines ai' ∧ (0, 0) ∈ safes ai').
Proof.
  simpl. split; (split; [set_solver|]); eexists; (split; [done|]);
    simpl; set_solver.
Qed.

(** ** Empty sentences *)

(** C5 at two games played from the empty knowledge base.  On the 2 by 2
    board with its mine at (1, 1), the third observation makes three equal
    sentences empty at once and the sweep that removes the empty sentences
    skips one; on the 1 by 2 board the second observation builds an empty
    sentence while the loop condition is false, so that the sweep is never
    run.  Both calls return with the empty sentence in the list. *)
Theorem empty_sentence_persists :
  (∃ ai, play (MinesweeperAI_init 2 2) [((0, 0), 1); ((0, 1), 1); ((1, 0), 1)] = Ok ai
         ∧ knowledge ai = [ {| cells := ∅; count := 0 |} ])
  ∧ (∃ ai, play (MinesweeperAI_init 1 2) [((0, 0), 0); ((0, 1), 0)] = Ok ai
           ∧ knowledge ai = [ {| cells := ∅; count := 0 |} ]).
Proof. split; eexists; split; by vm_compute. Qed.

(** ** Queries *)

Lemma first_safe_spec ai (l : list Cell) :
  match first_safe ai l with
  | Some c => c ∈ l ∧ (c ∉ moves_made ai) ∧ (c ∉ mines ai)
  | None => ∀ c, c ∈ l → c ∈ moves_made ai ∪ mines ai
  end.
Proof.
  induction l as [|move l IH]; simpl.
  { intros c Hc. by apply elem_of_nil in Hc. }
  destruct (decide _) as [[H1 H2]|Hn].
  - split; [set_solver|done].
  - destruct (first_safe ai l) as [c|].
    + destruct IH as (? & ? & ?). split; [set_solver|done].
    + intros c [Heq|Hc]%elem_of_cons; [subst c|by apply IH].
      destruct (decide (move ∈ moves_made ai)); [set_solver|].
      destruct (decide (move ∈ mines ai)); [set_solver|]. tauto.
Qed.

Lemma elem_of_possible_moves ai (c : Cell) :
  c ∈ possible_moves ai
  ↔ in_bounds (height ai) (width ai) c ∧ (c ∉ moves_made ai) ∧ (c ∉ mines ai).
Proof.
  unfold possible_moves. destruct c as [i j].
  rewrite list_elem_of_In, in_flat_map. split.
  - intros (i' & Hi & Hc). apply in_flat_map in Hc as (j' & Hj & Hc).
    apply list_elem_of_In, elem_of_range in Hi, Hj.
    destruct (decide _) as [[H1 H2]|_]; [|done].
    destruct Hc as [[= <- <-]|[]]. unfold in_bounds. simpl. done.
  - intros ([Hi Hj] & H1 & H2). simpl in Hi, Hj.
    exists i. split; [by apply list_elem_of_In, elem_of_range|].
    apply in_flat_map. exists j.
    split; [by apply list_elem_of_In, elem_of_range|].
    rewrite decide_True by done. by left.
Qed.

(** C8, as the code has it.  [make_safe_move] returns a cell of [safes]
    that is neither in [moves_made] nor in [mines] when there is one, and
    [None] otherwise; [make_random_move], for a random source that returns
    an integer between its two bounds, returns a cell of the board that is
    neither in [moves_made] nor in [mines] when there is one, and [None]
    exactly when there is none. *)
Theorem query_contract (randint : Z → Z → Z) (ai : MinesweeperAI) :
  (∀ a b, a ≤ b → a ≤ randint a b ∧ randint a b ≤ b) →
  match make_safe_move ai with
  | Some c => c ∈ safes ai ∖ (moves_made ai ∪ mines ai)
  | None => safes ai ∖ (moves_made ai ∪ mines ai) = ∅
  end
  ∧ match make_random_move randint ai with
    | Some c => in_bounds (height ai) (width ai) c
                ∧ c ∉ moves_made ai ∪ mines ai
    | None => ∀ c, in_bounds (height ai) (width ai) c →
                   c ∈ moves_made ai ∪ mines ai
    end.
Proof.
  intros Hrand. split.
  - unfold make_safe_move.
    pose proof (first_safe_spec ai (elements (safes ai))) as H.
    destruct (first_safe ai _) as [c|].
    + destruct H as (Hc & ? & ?). apply elem_of_elements in Hc. set_solver.
    + apply set_eq. intros c. split; [|set_solver].
      intros [Hc Hn]%elem_of_difference. exfalso. apply Hn, H.
      by apply elem_of_elements.
  - unfold make_random_move.
    destruct (possible_moves ai) as [|m l] eqn:Hp; simpl.
    + intros c Hb.
      destruct (decide (c ∈ moves_made ai)); [set_solver|].
      destruct (decide (c ∈ mines ai)); [set_solver|].
      assert (c ∈ possible_moves ai) as Hc by (by apply elem_of_possible_moves).
      rewrite Hp in Hc. by apply elem_of_nil in Hc.
    + destruct (Hrand 0 (Z.of_nat (S (length l)) - 1)) as [Hlo Hhi]; [lia|].
      destruct ((m :: l) !! Z.to_nat (randint 0 (Z.of_nat (S (length l)) - 1)))
        as [c|] eqn:Hl.
      * apply list_elem_of_lookup_2 in Hl. rewrite <- Hp in Hl.
        apply elem_of_possible_moves in Hl. set_solver.
      * apply lookup_ge_None in Hl. simpl in Hl. lia.
Qed.

Lemma query_contract_witness :
  let randint := λ a b : Z, a in
  let ai := mark_safe (MinesweeperAI_init 1 2) (0, 1) in
  (∀ a b, a ≤ b → a ≤ randint a b ∧ randint a b ≤ b)
  ∧ match make_safe_move ai with
    | Some c => c ∈ safes ai ∖ (moves_made ai ∪ mines ai)
    | None => safes ai ∖ (moves_made ai ∪ mines ai) = ∅
    end
  ∧ match make_random_move randint ai with
    | Some c => in_bounds (height ai) (width ai) c
                ∧ c ∉ moves_made ai ∪ mines ai
    | None => ∀ c, in_bounds (height ai) (width ai) c →
                   c ∈ moves_made ai ∪ mines ai
    end.
Proof.
  intros randint ai.
  assert (∀ a b, a ≤ b → a ≤ randint a b ∧ randint a b ≤ b) as Hr
    by (intros a b; unfold randint; lia).
  split; [exact Hr|]. exact (query_contract randint ai Hr).
Defined.

(** With a cell in both [safes] and [mines], [safes] minus [moves_made] is
    not empty and [make_safe_move] returns [None]. *)
Lemma safe_move_skips_mines :
  let ai := mark_safe (mark_mine (MinesweeperAI_init 1 1) (0, 0)) (0, 0) in
  (0, 0) ∈ safes ai ∖ moves_made ai ∧ make_safe_move ai = None.
Proof. split; [set_solver|by vm_compute]. Qed.

(** * Further properties of the knowledge base *)

(** ** The two trivial rules and the marking of one sentence *)

(** X1. [known_mines] and [known_safes] never both return cells; and for a
    sentence that is true of the mine set [M], every cell returned by
    [known_mines] is a mine and no cell returned by [known_safes] is. *)
Theorem trivial_rules_sound (M : gset Cell) (s : Sentence) :
  Sentence.known_mines s ∩ Sentence.known_safes s = ∅
  ∧ (sound_sentence M s →
     Sentence.known_mines s ⊆ M ∧ Sentence.known_safes s ## M).
Proof.
  split.
  - unfold Sentence.known_mines, Sentence.known_safes.
    destruct (decide _) as [Hn|_]; [|set_solver].
    destruct (decide _) as [H0|_]; [|set_solver].
    assert (size (cells s) = 0%nat) as Hsz by lia.
    apply size_empty_inv in Hsz. set_solver.
  - intros Hs. split.
    + intros c Hc. unfold Sentence.known_mines in Hc.
      destruct (decide _) as [Hn|_]; [|set_solver].
      by eapply sound_known_mine.
    + intros c Hc Hm. unfold Sentence.known_safes in Hc.
      destruct (decide _) as [H0|_]; [|set_solver].
      by eapply sound_known_safe.
Qed.

Lemma trivial_rules_sound_witness :
  let M : gset Cell := {[ (0, 0); (0, 1) ]} in
  let s := Sentence.init {[ (0, 0); (0, 1) ]} 2 in
  sound_sentence M s
  ∧ Sentence.known_mines s ⊆ M ∧ Sentence.known_safes s ## M.
Proof.
  intros M s.
  assert (sound_sentence M s) as Hs by (by vm_compute).
  split; [exact Hs|]. exact (proj2 (trivial_rules_sound M s) Hs).
Defined.

Lemma sentence_mark_mine_idem s c :
  Sentence.mark_mine (Sentence.mark_mine s c) c = Sentence.mark_mine s c.
Proof.
  apply sentence_mark_mine_notin. rewrite sentence_mark_mine_cells. set_solver.
Qed.

(** X2. Marking is idempotent: a second [mark_safe], or a second
    [mark_mine], of the same cell changes nothing, in the sets and in the
    sentences (the count of a sentence is decremented once). *)
Theorem mark_idempotent (ai : MinesweeperAI) (c : Cell) :
  mark_safe (mark_safe ai c) c = mark_safe ai c
  ∧ mark_mine (mark_mine ai c) c = mark_mine ai c.
Proof.
  split.
  - unfold mark_safe. simpl. f_equal; [set_solver|].
    rewrite <- list_fmap_compose. apply list_fmap_ext.
    intros _ s _. apply sentence_mark_safe_idem.
  - unfold mark_mine. simpl. f_equal; [set_solver|].
    rewrite <- list_fmap_compose. apply list_fmap_ext.
    intros _ s _. apply sentence_mark_mine_idem.
Qed.

Lemma sentence_marks_commute s a b :
  Sentence.mark_safe (Sentence.mark_safe s a) b
  = Sentence.mark_safe (Sentence.mark_safe s b) a
  ∧ Sentence.mark_mine (Sentence.mark_mine s a) b
    = Sentence.mark_mine (Sentence.mark_mine s b) a
  ∧ (a ≠ b →
     Sentence.mark_safe (Sentence.mark_mine s a) b
     = Sentence.mark_mine (Sentence.mark_safe s b) a).
Proof.
  destruct (decide (a = b)) as [->|Hne]; [done|].
  destruct s as [cs n].
  unfold Sentence.mark_safe, Sentence.mark_mine. simpl.
  split; [|split; [|intros _]];
    destruct (decide (a ∈ cs)); destruct (decide (b ∈ cs)); simpl;
    repeat (destruct (decide _); simpl);
    try (f_equal; first [set_solver|lia]); set_solver.
Qed.

(** X3. Markings of two cells commute: two [mark_safe], two [mark_mine],
    and a [mark_safe] with a [mark_mine] of a different cell give the same
    state in either order. *)
Theorem marks_commute (ai : MinesweeperAI) (a b : Cell) :
  mark_safe (mark_safe ai a) b = mark_safe (mark_safe ai b) a
  ∧ mark_mine (mark_mine ai a) b = mark_mine (mark_mine ai b) a
  ∧ (a ≠ b → mark_safe (mark_mine ai a) b = mark_mine (mark_safe ai b) a).
Proof.
  split; [|split; [|intros Hne]]; unfold mark_safe, mark_mine; simpl;
    f_equal; try set_solver;
    rewrite <- !list_fmap_compose; apply list_fmap_ext; intros _ s _; simpl;
    by apply sentence_marks_commute.
Qed.

Lemma marks_commute_witness :
  let ai := observe (MinesweeperAI_init 2 2) (0, 0) 1 in
  (0, 1) ≠ (1, 1)
  ∧ mark_safe (mark_mine ai (0, 1)) (1, 1)
    = mark_mine (mark_safe ai (1, 1)) (0, 1).
Proof.
  intros ai. assert ((0, 1) ≠ (1, 1)) as Hne by discriminate.
  split; [exact Hne|].
  exact (proj2 (proj2 (marks_commute ai (0, 1) (1, 1))) Hne).
Defined.

(** X4. On one cell the first marking wins: after [mark_mine] a
    [mark_safe] of the same cell leaves every sentence as it is, and after
    [mark_safe] a [mark_mine] of the same cell no longer decrements any
    count; the cell ends up in both sets either way. *)
Theorem first_marking_wins (ai : MinesweeperAI) (c : Cell) :
  knowledge (mark_safe (mark_mine ai c) c) = knowledge (mark_mine ai c)
  ∧ knowledge (mark_mine (mark_safe ai c) c) = knowledge (mark_safe ai c)
  ∧ c ∈ safes (mark_safe (mark_mine ai c) c)
        ∩ mines (mark_safe (mark_mine ai c) c)
  ∧ c ∈ safes (mark_mine (mark_safe ai c) c)
        ∩ mines (mark_mine (mark_safe ai c) c).
Proof.
  split; [|split; [|split]]; simpl; try set_solver.
  - rewrite <- list_fmap_compose. apply list_fmap_ext. intros _ s _. simpl.
    apply sentence_mark_safe_notin. rewrite sentence_mark_mine_cells.
    set_solver.
  - rewrite <- list_fmap_compose. apply list_fmap_ext. intros _ s _. simpl.
    apply sentence_mark_mine_notin. rewrite sentence_mark_safe_cells.
    set_solver.
Qed.

(** ** The state in which [add_knowledge] returns *)

Lemma inference_1_nil ai :
  inference_1 ai = [] →
  ∀ s1 s2, s1 ∈ knowledge ai → s2 ∈ knowledge ai →
           Sentence.is_subset s1 s2 = false.
Proof.
  unfold inference_1. intros Hnil s1 s2 H1 H2.
  destruct (Sentence.is_subset s1 s2) eqn:Hs; [|done].
  assert (In (Sentence.infer_new_sentance s1 s2) []) as Hin; [|done].
  rewrite <- Hnil. apply in_flat_map. exists s1.
  split; [by apply list_elem_of_In|].
  apply in_flat_map. exists s2. split; [by apply list_elem_of_In|].
  rewrite Hs. by left.
Qed.

Lemma filter_nil_not {A} (P : A → Prop) `{∀ x, Decision (P x)} (l : list A) x :
  filter P l = [] → x ∈ l → ¬ P x.
Proof.
  intros Hnil Hin HP.
  assert (x ∈ filter P l) as Hf by (by apply list_elem_of_filter).
  rewrite Hnil in Hf. by apply elem_of_nil in Hf.
Qed.

Lemma truthy_false {A} (l : list A) : truthy l = false → l = [].
Proof. by destruct l. Qed.

Lemma loop_cond_false ai :
  loop_cond ai = false →
  inference_1 ai = [] ∧ inference_2 ai = [] ∧ inference_3 ai = [].
Proof.
  unfold loop_cond. intros H.
  apply orb_false_iff in H as [H H3]. apply orb_false_iff in H as [H1 H2].
  auto using truthy_false.
Qed.

(** X5. [add_knowledge] returns in a saturated state: no sentence of the
    list has its cells properly included in those of another, and every
    sentence that still has cells has a count that is neither 0 nor the
    number of its cells, so that none of the three inference functions has
    anything left to give.  An empty sentence can therefore only remain
    in a list all of whose sentences are empty. *)
Theorem add_knowledge_saturates (ai : MinesweeperAI) (cell : Cell) (n : Z) :
  ∃ ai', add_knowledge ai cell n = Ok ai'
    ∧ (∀ s1 s2, s1 ∈ knowledge ai' → s2 ∈ knowledge ai' →
                ¬ cells s1 ⊂ cells s2)
    ∧ (∀ s, s ∈ knowledge ai' → cells s ≠ ∅ →
            count s ≠ 0 ∧ Z.of_nat (size (cells s)) ≠ count s)
    ∧ ((∃ s, s ∈ knowledge ai' ∧ cells s = ∅) →
       ∀ s, s ∈ knowledge ai' → cells s = ∅).
Proof.
  destruct (add_knowledge_ok ai cell n) as (ai' & Ha & Hc & _).
  apply loop_cond_false in Hc as (H1 & H2 & H3).
  pose proof (inference_1_nil ai' H1) as Hsub.
  assert (∀ s1 s2, s1 ∈ knowledge ai' → s2 ∈ knowledge ai' →
                   ¬ cells s1 ⊂ cells s2) as Hno.
  { intros s1 s2 Hs1 Hs2 Hlt. apply is_subset_true in Hlt.
    by rewrite (Hsub s1 s2 Hs1 Hs2) in Hlt. }
  exists ai'. split; [done|]. split; [done|]. split.
  - intros s Hs Hne. split.
    + intros H0. apply (filter_nil_not _ _ s H2 Hs).
      unfold Sentence.known_safes. by rewrite decide_True.
    + intros Hn. apply (filter_nil_not _ _ s H3 Hs).
      unfold Sentence.known_mines. by rewrite decide_True.
  - intros (s0 & Hs0 & He) s Hs.
    destruct (decide (cells s = ∅)) as [|Hne]; [done|].
    exfalso. apply (Hno s0 s Hs0 Hs). rewrite He. split; [set_solver|].
    intros Hsub'. apply Hne. set_solver.
Qed.

(** One pass, and then the whole loop, never lengthens the list and never
    adds a cell to the sentences. *)
Lemma loop_body_shrinks ai ai' :
  loop_body ai = Ok ai' →
  (length (knowledge ai') ≤ length (knowledge ai))%nat
  ∧ (total_cells (knowledge ai') ≤ total_cells (knowledge ai))%nat.
Proof.
  intros Hb.
  destruct (loop_body_ok ai)
    as (k1 & ai2 & k3 & Hb' & Hr1 & _ & Hr2 & _ & Hr3 & _).
  rewrite Hb in Hb'. injection Hb' as ->. simpl.
  destruct (chain_measures _ _ _ Hr1) as (Hl1 & _ & Hle1).
  destruct (mark_steps_measures _ _ Hr2) as (Hl2 & Hle2). simpl in Hl2, Hle2.
  destruct (drops_measures _ _ Hr3) as (Hl3 & _ & Heq3).
  split; lia.
Qed.

Lemma while_loop_shrinks fuel ai ai' :
  while_loop fuel ai = Ok ai' →
  (length (knowledge ai') ≤ length (knowledge ai))%nat
  ∧ (total_cells (knowledge ai') ≤ total_cells (knowledge ai))%nat.
Proof.
  revert ai. induction fuel as [|fuel IH]; intros ai; simpl.
  - destruct (loop_cond ai); [done|]. by intros [= <-].
  - destruct (loop_cond ai); [|by intros [= <-]].
    intros H. apply bind_Ok in H as (ai1 & Hb & H).
    apply loop_body_shrinks in Hb as [? ?]. apply IH in H as [? ?].
    split; lia.
Qed.

Lemma size_list_to_set_le (l : list Cell) :
  (size (list_to_set l : gset Cell) ≤ length l)%nat.
Proof.
  induction l as [|c l IH].
  - rewrite list_to_set_nil, size_empty. done.
  - rewrite list_to_set_cons.
    pose proof (size_union_alt (C:=gset Cell) {[c]} (list_to_set l)) as Hu.
    rewrite Hu, size_singleton.
    assert (size (list_to_set l ∖ {[c]} : gset Cell)
            ≤ size (list_to_set l : gset Cell))%nat.
    { apply subseteq_size. set_solver. }
    simpl. lia.
Qed.

Lemma size_neighbours8 h w c : (size (neighbours8 h w c) ≤ 8)%nat.
Proof.
  unfold neighbours8.
  etrans; [apply size_list_to_set_le|].
  etrans; [apply length_filter|]. done.
Qed.

(** X6. One call of [add_knowledge] adds at most one sentence and at most
    eight cells to the knowledge list, whatever the loop does: the
    subsetting step replaces a sentence by a smaller one, the marking step
    removes cells, the sweep removes sentences. *)
Theorem add_knowledge_growth (ai : MinesweeperAI) (cell : Cell) (n : Z) :
  ∃ ai', add_knowledge ai cell n = Ok ai'
    ∧ (length (knowledge ai') ≤ S (length (knowledge ai)))%nat
    ∧ (total_cells (knowledge ai') ≤ total_cells (knowledge ai) + 8)%nat.
Proof.
  destruct (add_knowledge_ok ai cell n) as (ai' & Ha & _).
  exists ai'. split; [done|].
  unfold add_knowledge in Ha. apply while_loop_shrinks in Ha as [Hl Ht].
  rewrite observe_eq in Hl, Ht. cbv zeta in Hl, Ht. simpl in Hl, Ht.
  rewrite length_app in Hl. rewrite total_cells_app in Ht.
  unfold total_cells at 3 in Ht. simpl in Ht.
  assert (size (neighbours8 (height ai) (width ai) cell ∖ (safes ai ∪ mines ai))
          ≤ 8)%nat as H8.
  { etrans; [|apply (size_neighbours8 (height ai) (width ai) cell)].
    apply subseteq_size. set_solver. }
  destruct (decide _); simpl in *.
  - rewrite length_fmap in Hl.
    pose proof (total_cells_fmap_le (λ s, Sentence.mark_safe s cell)
                  (knowledge ai)) as Hle.
    split; [lia|]. etrans; [exact Ht|].
    assert (total_cells ((λ s, Sentence.mark_safe s cell) <$> knowledge ai)
            ≤ total_cells (knowledge ai))%nat; [|lia].
    apply Hle. intros s. rewrite sentence_mark_safe_cells. set_solver.
  - split; lia.
Qed.

Lemma preserved_moves (X : gset Cell) : preserved (λ ai, moves_made ai = X).
Proof.
  split; [done|]. intros ai ai' <- Hstep.
  apply mark_step_fields in Hstep. tauto.
Qed.

(** What [add_knowledge] does to the board size, the moves and the safe
    cells. *)
Lemma add_knowledge_effect ai cell n :
  ∃ ai', add_knowledge ai cell n = Ok ai'
    ∧ (height ai' = height ai ∧ width ai' = width ai)
    ∧ moves_made ai'
      = (if decide (in_bounds (height ai) (width ai) cell)
         then moves_made ai ∪ {[cell]} else moves_made ai)
    ∧ safes ai ⊆ safes ai' ∧ mines ai ⊆ mines ai'
    ∧ (in_bounds (height ai) (width ai) cell → cell ∈ safes ai').
Proof.
  set (mv := if decide (in_bounds (height ai) (width ai) cell)
             then moves_made ai ∪ {[cell]} else moves_made ai).
  set (sf := if decide (in_bounds (height ai) (width ai) cell)
             then safes ai ∪ {[cell]} else safes ai).
  destruct (add_knowledge_preserves
              (λ ai', ((height ai' = height ai ∧ width ai' = width ai)
                       ∧ moves_made ai' = mv)
                      ∧ (∅ ⊆ moves_made ai' ∧ sf ⊆ safes ai'
                         ∧ mines ai ⊆ mines ai')) ai cell n)
    as (ai' & Ha & [[Hb Hm] (_ & Hs & Hmi)]).
  - apply preserved_and; [apply preserved_and|].
    + apply preserved_board.
    + apply preserved_moves.
    + apply preserved_grow.
  - subst mv sf. rewrite observe_eq. cbv zeta.
    destruct (decide _); simpl; repeat split; set_solver.
  - exists ai'. split; [done|]. split; [done|]. split; [done|].
    subst sf. destruct (decide _); repeat split; set_solver.
Qed.

(** X7. [add_knowledge] leaves the board size alone and records the
    observed cell as a move exactly when it is a cell of the board:
    [moves_made] gains that cell and nothing else, and for a cell off the
    board it is unchanged.  A cell of the board is also in [safes] when
    the call returns; before the loop, [safes] has gained the observed
    cell when it is on the board and nothing when it is not (the loop may
    still mark any cell safe). *)
Theorem add_knowledge_records_move (ai : MinesweeperAI) (cell : Cell) (n : Z) :
  ∃ ai', add_knowledge ai cell n = Ok ai'
    ∧ height ai' = height ai ∧ width ai' = width ai
    ∧ moves_made ai'
      = (if decide (in_bounds (height ai) (width ai) cell)
         then moves_made ai ∪ {[cell]} else moves_made ai)
    ∧ safes (observe ai cell n)
      = (if decide (in_bounds (height ai) (width ai) cell)
         then safes ai ∪ {[cell]} else safes ai)
    ∧ safes (observe ai cell n) ⊆ safes ai'
    ∧ (in_bounds (height ai) (width ai) cell → cell ∈ safes ai').
Proof.
  destruct (add_knowledge_effect ai cell n)
    as (ai' & Ha & [Hh Hw] & Hm & _ & _ & Hs).
  exists ai'. split_and!; try done.
  - rewrite observe_eq. cbv zeta. by destruct (decide _).
  - destruct (add_knowledge_preserves
                (λ ai1, ∅ ⊆ moves_made ai1
                        ∧ safes (observe ai cell n) ⊆ safes ai1
                        ∧ ∅ ⊆ mines ai1) ai cell n)
      as (ai'' & Ha' & _ & Hsub & _); [apply preserved_grow|set_solver|].
    rewrite Ha in Ha'. by injection Ha' as <-.
Qed.

(** ** Sessions *)

Lemma run_op_well_formed h w o ai :
  well_formed h w ai → ∃ ai', run_op o ai = Ok ai' ∧ well_formed h w ai'.
Proof.
  intros ([Hh Hw] & Hon & Hst & Hms & Hmb).
  destruct o as [cell n|cell|cell| |]; simpl.
  - destruct (add_knowledge_effect ai cell n)
      as (ai' & Ha & [Hh' Hw'] & Hm & Hs & _ & Hc).
    destruct (add_knowledge_on_board ai cell n Hon) as (ai1 & Ha1 & _ & Hon').
    rewrite Ha in Ha1. injection Ha1 as <-.
    destruct (add_knowledge_preserves stripped ai cell n) as (ai2 & Ha2 & Hst');
      [apply preserved_stripped|by apply observe_stripped|].
    rewrite Ha in Ha2. injection Ha2 as <-.
    exists ai'. split; [done|]. rewrite Hh, Hw in *.
    split; [by rewrite Hh', Hw'|]. split; [done|]. split; [done|].
    rewrite Hm. destruct (decide _) as [Hb|_].
    + split; [set_solver|]. intros c Hc'.
      apply elem_of_union in Hc' as [Hc'|Hc']; [auto|].
      apply elem_of_singleton in Hc'. by subst c.
    + split; [set_solver|done].
  - exists (mark_safe ai cell). split; [done|]. split; [done|].
    split; [by apply on_board_marks|]. split; [by apply stripped_mark_safe|].
    simpl. split; [set_solver|done].
  - exists (mark_mine ai cell). split; [done|]. split; [done|].
    split; [by apply on_board_marks|]. split; [by apply stripped_mark_mine|].
    simpl. split; [set_solver|done].
  - by exists ai.
  - by exists ai.
Qed.

(** X8. Every state of a session is well formed: whatever public
    operations are run from the empty knowledge base of an [h] by [w]
    board, they all return, the board size is unchanged, the sentences
    mention cells of the board only and none that is marked, and every
    move made is a cell of the board that is known safe. *)
Theorem session_well_formed (h w : Z) (ops : list op) :
  ∃ ai, run_ops ops (MinesweeperAI_init h w) = Ok ai ∧ well_formed h w ai.
Proof.
  assert (well_formed h w (MinesweeperAI_init h w)) as Hinit.
  { split; [done|]. split; [constructor|]. split; [constructor|].
    simpl. split; set_solver. }
  revert Hinit. generalize (MinesweeperAI_init h w).
  induction ops as [|o ops IH]; intros ai Hwf; simpl; [eauto|].
  destruct (run_op_well_formed h w o ai Hwf) as (ai' & -> & Hwf').
  simpl. by apply IH.
Qed.

Lemma run_ops_grow ops ai :
  ∃ ai', run_ops ops ai = Ok ai' ∧ moves_made ai ⊆ moves_made ai'.
Proof.
  revert ai. induction ops as [|o ops IH]; intros ai; simpl; [eauto|].
  assert (∃ ai1, run_op o ai = Ok ai1 ∧ moves_made ai ⊆ moves_made ai1)
    as (ai1 & -> & Hm).
  { destruct o as [cell n|cell|cell| |]; simpl; eauto.
    destruct (add_knowledge_effect ai cell n) as (ai1 & Ha & _ & Hm & _).
    exists ai1. split; [done|]. rewrite Hm. destruct (decide _); set_solver. }
  simpl. destruct (IH ai1) as (ai' & -> & Hm'). exists ai'.
  split; [done|]. set_solver.
Qed.

(** X9. A board cell that has been observed is never proposed again:
    after [add_knowledge] of it, and after any further public operations,
    neither [make_safe_move] nor [make_random_move], whatever the random
    source returns, gives that cell. *)
Theorem observed_cell_not_proposed (ai : MinesweeperAI) (cell : Cell) (n : Z)
    (ops : list op) (randint : Z → Z → Z) :
  in_bounds (height ai) (width ai) cell →
  ∃ ai' ai'', add_knowledge ai cell n = Ok ai'
    ∧ run_ops ops ai' = Ok ai''
    ∧ make_safe_move ai'' ≠ Some cell
    ∧ make_random_move randint ai'' ≠ Some cell.
Proof.
  intros Hb.
  destruct (add_knowledge_effect ai cell n) as (ai' & Ha & _ & Hm & _).
  rewrite decide_True in Hm by done.
  destruct (run_ops_grow ops ai') as (ai'' & Hr & Hg).
  exists ai', ai''. split; [done|]. split; [done|].
  assert (cell ∈ moves_made ai'') as Hin by set_solver.
  split.
  - unfold make_safe_move. intros Hs.
    pose proof (first_safe_spec ai'' (elements (safes ai''))) as H.
    rewrite Hs in H. tauto.
  - unfold make_random_move. intros Hs.
    destruct (truthy _); [|done].
    apply list_elem_of_lookup_2, elem_of_possible_moves in Hs. tauto.
Qed.

Lemma observed_cell_not_proposed_witness :
  let ai := MinesweeperAI_init 2 2 in
  in_bounds (height ai) (width ai) (0, 0)
  ∧ ∃ ai' ai'', add_knowledge ai (0, 0) 1 = Ok ai'
      ∧ run_ops [MarkMine (1, 1); AddKnowledge (0, 1) 1] ai' = Ok ai''
      ∧ make_safe_move ai'' ≠ Some (0, 0)
      ∧ make_random_move (λ a _, a) ai'' ≠ Some (0, 0).
Proof.
  intros ai.
  assert (in_bounds (height ai) (width ai) (0, 0)) as Hb
    by (unfold in_bounds; simpl; lia).
  split; [exact Hb|].
  exact (observed_cell_not_proposed ai (0, 0) 1
           [MarkMine (1, 1); AddKnowledge (0, 1) 1] (λ a _, a) Hb).
Defined.

(** ** The candidates of [make_random_move] *)

Lemma in_row_cells (P : Cell → Prop) `{∀ c, Decision (P c)} i cols (c : Cell) :
  In c (flat_map (λ j, if decide (P (i, j)) then [(i, j)] else []) cols)
  ↔ c.1 = i ∧ c.2 ∈ cols ∧ P c.
Proof.
  rewrite in_flat_map. destruct c as [ci cj]. simpl. split.
  - intros (j & Hj & Hc). apply list_elem_of_In in Hj.
    destruct (decide (P (i, j))); [|done].
    destruct Hc as [[= <- <-]|[]]. done.
  - intros (-> & Hj & HP). exists cj. split; [by apply list_elem_of_In|].
    rewrite decide_True by done. by left.
Qed.

Lemma NoDup_board_cells (P : Cell → Prop) `{∀ c, Decision (P c)} rows cols :
  NoDup rows → NoDup cols →
  NoDup (flat_map (λ i,
           flat_map (λ j, if decide (P (i, j)) then [(i, j)] else []) cols)
           rows).
Proof.
  intros Hr Hc. induction Hr as [|i rows Hi Hr IH]; simpl; [constructor|].
  apply list.NoDup_app. split; [|split; [|done]].
  - clear -Hc. induction Hc as [|j cols Hj Hc IH]; simpl; [constructor|].
    destruct (decide (P (i, j))); [|done]. simpl. apply list.NoDup_cons.
    split; [|done]. intros Hin%list_elem_of_In%in_row_cells.
    simpl in Hin. tauto.
  - intros c Hc1%list_elem_of_In%in_row_cells Hc2%list_elem_of_In.
    apply in_flat_map in Hc2 as (i' & Hi' & Hc2).
    apply in_row_cells in Hc2 as (Heq & _). apply list_elem_of_In in Hi'.
    destruct Hc1 as (Heq1 & _). congruence.
Qed.

(** X10. The list from which [make_random_move] draws holds every cell of
    the board that is neither a move made nor a known mine exactly once;
    and whatever integer the random source returns, the result is [None]
    or one of these cells, never a move made, a known mine or a cell off
    the board. *)
Theorem random_move_candidates (ai : MinesweeperAI) :
  NoDup (possible_moves ai)
  ∧ (∀ c, c ∈ possible_moves ai
          ↔ in_bounds (height ai) (width ai) c
            ∧ (c ∉ moves_made ai) ∧ (c ∉ mines ai))
  ∧ (∀ randint c, make_random_move randint ai = Some c →
                  c ∈ possible_moves ai).
Proof.
  split; [|split].
  - unfold possible_moves.
    exact (@NoDup_board_cells
             (λ c, (c ∉ moves_made ai) ∧ (c ∉ mines ai)) (λ c, _) _ _
             (NoDup_seqZ _ _) (NoDup_seqZ _ _)).
  - apply elem_of_possible_moves.
  - intros randint c. unfold make_random_move.
    destruct (truthy _); [|done]. apply list_elem_of_lookup_2.
Qed.

(** ** The inference functions *)

(** X11. On a knowledge base that is true of the mine set [M], what the
    three inference functions return is true as well: every sentence of
    [inference_1] has exactly [count] mines among its cells, every sentence
    of [inference_2] has cells and none is a mine, every sentence of
    [inference_3] has cells and all are mines. *)
Theorem inferences_sound (M : gset Cell) (ai : MinesweeperAI) :
  sound M ai →
  Forall (sound_sentence M) (inference_1 ai)
  ∧ Forall (λ s, cells s ≠ ∅ ∧ cells s ## M) (inference_2 ai)
  ∧ Forall (λ s, cells s ≠ ∅ ∧ cells s ⊆ M) (inference_3 ai).
Proof.
  intros (Hk & _ & _). split; [|split]; apply list.Forall_forall.
  - intros s Hs%list_elem_of_In. unfold inference_1 in Hs.
    apply in_flat_map in Hs as (s1 & H1%list_elem_of_In & Hs).
    apply in_flat_map in Hs as (s2 & H2%list_elem_of_In & Hs).
    destruct (Sentence.is_subset s1 s2) eqn:Hsub; [|done].
    destruct Hs as [<-|[]].
    apply sound_sentence_closed; [| |done];
      by eapply list.Forall_forall in Hk.
  - intros s [Hne Hs]%list_elem_of_filter.
    eapply list.Forall_forall in Hk; [|done].
    unfold Sentence.known_safes in Hne.
    destruct (decide (count s = 0)) as [H0|_]; [|done].
    split; [done|]. intros c Hc. by eapply sound_known_safe.
  - intros s [Hne Hs]%list_elem_of_filter.
    eapply list.Forall_forall in Hk; [|done].
    unfold Sentence.known_mines in Hne.
    destruct (decide _) as [Hn|_]; [|done].
    split; [done|]. intros c Hc. by eapply sound_known_mine.
Qed.

Lemma inferences_sound_witness :
  let M : gset Cell := {[ (0, 1) ]} in
  let ai :=
    set_knowledge (MinesweeperAI_init 2 2)
      [ {| cells := {[ (0, 1) ]}; count := 1 |};
        {| cells := {[ (0, 1); (1, 0) ]}; count := 1 |};
        {| cells := {[ (1, 1) ]}; count := 0 |} ] in
  sound M ai
  ∧ inference_1 ai = [ {| cells := {[ (1, 0) ]}; count := 0 |} ]
  ∧ inference_2 ai = [ {| cells := {[ (1, 1) ]}; count := 0 |} ]
  ∧ inference_3 ai = [ {| cells := {[ (0, 1) ]}; count := 1 |} ]
  ∧ Forall (sound_sentence M) (inference_1 ai)
  ∧ Forall (λ s, cells s ≠ ∅ ∧ cells s ## M) (inference_2 ai)
  ∧ Forall (λ s, cells s ≠ ∅ ∧ cells s ⊆ M) (inference_3 ai).
Proof.
  intros M ai.
  assert (sound M ai) as Hs.
  { split; [|simpl; split; set_solver].
    simpl. repeat constructor; by vm_compute. }
  split; [exact Hs|].
  split; [by vm_compute|]. split; [by vm_compute|]. split; [by vm_compute|].
  exact (inferences_sound M ai Hs).
Defined.

(** ** The sweep *)

Lemma list_remove_filter (P : Sentence → Prop) `{∀ s, Decision (P s)} x l l' :
  list_remove x l = Ok l' → ¬ P x → filter P l' = filter P l.
Proof.
  intros Hr Hx. revert l' Hr.
  induction l as [|y l IH]; intros l'; simpl; [done|].
  destruct (decide (y = x)) as [->|Hne].
  - intros [= ->]. by rewrite filter_cons_False.
  - intros Hb. apply bind_Ok in Hb as (l'' & Hr & [= <-]).
    rewrite !filter_cons, (IH _ Hr). done.
Qed.

Lemma sweep_keeps fuel i k k' :
  sweep fuel i k = Ok k' →
  filter (λ s, cells s ≠ ∅) k' = filter (λ s, cells s ≠ ∅) k.
Proof.
  revert i k. induction fuel as [|fuel IH]; intros i k; simpl.
  { by intros [= <-]. }
  destruct (k !! i) as [s|]; [|by intros [= <-]].
  destruct (decide (cells s = ∅)) as [He|_]; [|apply IH].
  intros Hb. apply bind_Ok in Hb as (k1 & Hr & Hs).
  rewrite (IH _ _ Hs). eapply list_remove_filter; [done|]. auto.
Qed.

(** X12. The sweep that removes the empty sentences always returns; it
    keeps every sentence that has cells, in the order of the list, removes
    nothing but empty sentences, and removes at least one of them when
    there is one. *)
Theorem remove_empty_keeps (k : list Sentence) :
  ∃ k', remove_empty k = Ok k'
    ∧ filter (λ s, cells s ≠ ∅) k' = filter (λ s, cells s ≠ ∅) k
    ∧ k' ⊆+ k
    ∧ (empties k ≠ 0%nat → (empties k' < empties k)%nat).
Proof.
  destruct (remove_empty_steps k) as (k' & Hr & Hrtc & Ht).
  exists k'. split; [done|]. split; [by eapply sweep_keeps|]. split.
  - clear -Hrtc. induction Hrtc as [k|k k1 k' (s & _ & Hp) _ IH]; [done|].
    etrans; [exact IH|]. rewrite Hp. by apply submseteq_cons.
  - intros He. by apply drops_progress, Ht.
Qed.

(** * The board of the game *)

Example board_2x3 :
  Minesweeper.init 2 3 2 [(0, 4); (2, 1); (5, 5)]
  = Minesweeper.Return
      {| Minesweeper.height := 2; Minesweeper.width := 3;
         Minesweeper.mines := {[ (0, 1); (1, 2) ]};
         Minesweeper.board := [[false; true; false]; [false; false; true]];
         Minesweeper.mines_found := ∅ |}.
Proof. by vm_compute. Qed.

Example nearby_2x3 :
  match Minesweeper.init 2 3 2 [(0, 4); (2, 1); (5, 5)] with
  | Minesweeper.Return g =>
      Minesweeper.nearby_mines g (0, 2) = Minesweeper.Return 2
      ∧ Minesweeper.nearby_mines g (1, 0) = Minesweeper.Return 1
      ∧ Minesweeper.is_mine g (-1, 2) = Minesweeper.Return true
      ∧ Minesweeper.is_mine g (2, 0) = Minesweeper.Raises Minesweeper.IndexError
  | _ => False
  end.
Proof. by vm_compute. Qed.

(** ** Indexing *)

Lemma py_index_nonneg {A} (l : list A) (i : Z) :
  0 ≤ i →
  Minesweeper.py_index l i
  = if decide (i < Z.of_nat (length l)) then Minesweeper.Return (Z.to_nat i)
    else Minesweeper.Raises Minesweeper.IndexError.
Proof.
  intros Hi. unfold Minesweeper.py_index.
  destruct (decide (i < _)).
  - rewrite decide_True by lia. done.
  - rewrite decide_False by lia. rewrite decide_False by lia. done.
Qed.

Lemma py_get_nonneg {A} (l : list A) (i : Z) :
  0 ≤ i →
  Minesweeper.py_get l i
  = match l !! Z.to_nat i with
    | Some a => Minesweeper.Return a
    | None => Minesweeper.Raises Minesweeper.IndexError
    end.
Proof.
  intros Hi. unfold Minesweeper.py_get. rewrite py_index_nonneg by done.
  destruct (decide _) as [Hlt|Hge]; simpl; [done|].
  rewrite (proj2 (lookup_ge_None l (Z.to_nat i))) by lia. done.
Qed.

Lemma py_get_negative {A} (l : list A) (i : Z) :
  - Z.of_nat (length l) ≤ i → i < 0 →
  Minesweeper.py_get l i = Minesweeper.py_get l (i + Z.of_nat (length l)).
Proof.
  intros Hlo Hhi. unfold Minesweeper.py_get, Minesweeper.py_index.
  rewrite (decide_False (P := 0 ≤ i ∧ _)) by lia.
  rewrite (decide_True (P := _ ≤ i ∧ i < 0)) by lia.
  rewrite (decide_True (P := 0 ≤ i + _ ∧ _)) by lia.
  simpl. by replace (Z.of_nat (length l) + i) with (i + Z.of_nat (length l))
    by lia.
Qed.

Lemma py_get_out {A} (l : list A) (i : Z) :
  i < - Z.of_nat (length l) ∨ Z.of_nat (length l) ≤ i →
  Minesweeper.py_get l i = Minesweeper.Raises Minesweeper.IndexError.
Proof.
  intros Hi. unfold Minesweeper.py_get, Minesweeper.py_index.
  rewrite (decide_False (P := 0 ≤ i ∧ _)) by lia.
  rewrite (decide_False (P := _ ≤ i ∧ i < 0)) by lia. done.
Qed.

Lemma get2_nonneg (b : list (list bool)) (c : Cell) :
  0 ≤ c.1 → 0 ≤ c.2 →
  Minesweeper.get2 b c
  = match b !! Z.to_nat c.1 ≫= (λ row, row !! Z.to_nat c.2) with
    | Some v => Minesweeper.Return v
    | None => Minesweeper.Raises Minesweeper.IndexError
    end.
Proof.
  intros H1 H2. unfold Minesweeper.get2. rewrite py_get_nonneg by done.
  destruct (b !! Z.to_nat c.1) as [row|]; simpl; [|done].
  by rewrite py_get_nonneg.
Qed.

Lemma set2_nonneg (b : list (list bool)) (c : Cell) (v : bool) row :
  0 ≤ c.1 → 0 ≤ c.2 →
  b !! Z.to_nat c.1 = Some row → (Z.to_nat c.2 < length row)%nat →
  Minesweeper.set2 b c v
  = Minesweeper.Return (<[Z.to_nat c.1 := <[Z.to_nat c.2 := v]> row]> b).
Proof.
  intros H1 H2 Hrow Hj. unfold Minesweeper.set2.
  rewrite py_get_nonneg, Hrow by done. simpl.
  unfold Minesweeper.py_set. rewrite py_index_nonneg by done.
  rewrite decide_True by lia. simpl.
  rewrite py_index_nonneg by done.
  apply lookup_lt_Some in Hrow. rewrite decide_True by lia. done.
Qed.

(** ** Building the board *)

Lemma length_range a b : length (range a b) = Z.to_nat (b - a).
Proof. unfold range. apply length_seqZ. Qed.

Lemma empty_board_consistent h w :
  Minesweeper.consistent
    {| Minesweeper.height := h; Minesweeper.width := w;
       Minesweeper.mines := ∅; Minesweeper.board := Minesweeper.empty_board h w;
       Minesweeper.mines_found := ∅ |}.
Proof.
  unfold Minesweeper.consistent, Minesweeper.empty_board. simpl.
  split; [|split; [|split]].
  - rewrite length_fmap, length_range. f_equal. lia.
  - apply Forall_fmap, Forall_true. intros ?. simpl.
    rewrite length_fmap, length_range. f_equal. lia.
  - intros [i j] [[Hi1 Hi2] [Hj1 Hj2]]. simpl in *.
    rewrite get2_nonneg by done. simpl.
    rewrite list_lookup_fmap. unfold range.
    rewrite (lookup_seqZ_lt 0 (h - 0) (Z.to_nat i)) by lia. simpl.
    rewrite list_lookup_fmap.
    rewrite (lookup_seqZ_lt 0 (w - 0) (Z.to_nat j)) by lia. simpl.
    by rewrite bool_decide_eq_false_2 by set_solver.
  - set_solver.
Qed.

Lemma randrange_spec n raw :
  match Minesweeper.randrange n raw with
  | Minesweeper.Return i => 0 ≤ i ∧ i < n
  | Minesweeper.Raises e => e = Minesweeper.ValueError ∧ n ≤ 0
  end.
Proof.
  unfold Minesweeper.randrange. destruct (decide (0 < n)).
  - apply Z.mod_pos_bound. done.
  - split; [done|lia].
Qed.

(** Putting a mine on a free cell of the board keeps field and set in
    agreement. *)
Lemma place_one_consistent g (c : Cell) :
  Minesweeper.consistent g →
  in_bounds (Minesweeper.height g) (Minesweeper.width g) c →
  ∃ board',
    Minesweeper.set2 (Minesweeper.board g) c true = Minesweeper.Return board'
    ∧ Minesweeper.consistent
        {| Minesweeper.height := Minesweeper.height g;
           Minesweeper.width := Minesweeper.width g;
           Minesweeper.mines := Minesweeper.mines g ∪ {[c]};
           Minesweeper.board := board';
           Minesweeper.mines_found := Minesweeper.mines_found g |}.
Proof.
  intros (Hlen & Hrows & Hget & Hin) Hb.
  destruct c as [i j]. pose proof Hb as [[Hi1 Hi2] [Hj1 Hj2]]. simpl in *.
  destruct (Minesweeper.board g !! Z.to_nat i) as [row|] eqn:Hrow.
  2:{ apply lookup_ge_None in Hrow. lia. }
  assert (length row = Z.to_nat (Minesweeper.width g)) as Hrl.
  { eapply list.Forall_forall in Hrows; [exact Hrows|].
    by eapply list_elem_of_lookup_2. }
  eexists. split.
  { apply (set2_nonneg _ (i, j) true row); simpl; [done|done|done|lia]. }
  unfold Minesweeper.consistent. simpl. split; [|split; [|split]].
  - by rewrite length_insert.
  - apply Forall_insert; [done|]. by rewrite length_insert.
  - intros [i' j'] Hb'. pose proof Hb' as [[Hi1' Hi2'] [Hj1' Hj2']].
    simpl in *. specialize (Hget (i', j') Hb').
    rewrite get2_nonneg in Hget |- * by done. simpl in *.
    destruct (decide (Z.to_nat i' = Z.to_nat i)) as [Hii|Hii].
    + assert (i' = i) as -> by lia.
      rewrite list_lookup_insert_eq by lia. simpl.
      rewrite Hrow in Hget. simpl in Hget.
      destruct (decide (Z.to_nat j' = Z.to_nat j)) as [Hjj|Hjj].
      * assert (j' = j) as -> by lia.
        rewrite list_lookup_insert_eq by lia.
        by rewrite bool_decide_eq_true_2 by set_solver.
      * rewrite list_lookup_insert_ne by done.
        destruct (row !! Z.to_nat j') as [v|]; [|done].
        injection Hget as ->. do 2 f_equal.
        apply bool_decide_ext. 
        assert ((i, j') ≠ (i, j)) by (intros [= ?]; lia). set_solver.
    + rewrite list_lookup_insert_ne by done.
      destruct (_ ≫= _) as [v|]; [|done].
      injection Hget as ->. do 2 f_equal.
      apply bool_decide_ext.
      assert ((i', j') ≠ (i, j)) by (intros [= ? ?]; lia). set_solver.
  - intros c' [Hc'| ->%elem_of_singleton]%elem_of_union; auto.
Qed.

Lemma place_spec n draws g :
  Minesweeper.consistent g →
  match Minesweeper.place n draws g with
  | Minesweeper.Return g' =>
      Minesweeper.consistent g'
      ∧ Minesweeper.height g' = Minesweeper.height g
      ∧ Minesweeper.width g' = Minesweeper.width g
      ∧ Z.of_nat (size (Minesweeper.mines g')) = n
      ∧ Minesweeper.mines g ⊆ Minesweeper.mines g'
      ∧ Minesweeper.mines_found g' = Minesweeper.mines_found g
  | Minesweeper.Raises Minesweeper.ValueError =>
      (Minesweeper.height g ≤ 0 ∨ Minesweeper.width g ≤ 0)
      ∧ Z.of_nat (size (Minesweeper.mines g)) ≠ n
  | Minesweeper.Raises Minesweeper.IndexError => False
  | Minesweeper.Raises Minesweeper.NoMoreDraws =>
      Z.of_nat (size (Minesweeper.mines g)) ≠ n
  end.
Proof.
  revert g. induction draws as [|[r1 r2] draws IH]; intros g Hg; simpl.
  { destruct (decide (Z.of_nat (size (Minesweeper.mines g)) = n));
      [by split_and!|done]. }
  destruct (decide (Z.of_nat (size (Minesweeper.mines g)) = n)) as [Hn|Hn];
    [by split_and!|].
  pose proof (randrange_spec (Minesweeper.height g) r1) as H1.
  destruct (Minesweeper.randrange (Minesweeper.height g) r1) as [i|e1];
    [|destruct H1 as [-> ?]; simpl; split; [lia|done]].
  simpl.
  pose proof (randrange_spec (Minesweeper.width g) r2) as H2.
  destruct (Minesweeper.randrange (Minesweeper.width g) r2) as [j|e2];
    [|destruct H2 as [-> ?]; simpl; split; [lia|done]].
  simpl.
  assert (in_bounds (Minesweeper.height g) (Minesweeper.width g) (i, j))
    as Hb by (unfold in_bounds; simpl; lia).
  pose proof Hg as (_ & _ & Hget & _). rewrite (Hget _ Hb). simpl.
  destruct (bool_decide _) eqn:Hm; simpl.
  - specialize (IH g Hg).
    by destruct (Minesweeper.place n draws g) as [g'|[]].
  - destruct (place_one_consistent g (i, j) Hg Hb) as (board' & -> & Hg').
    simpl. specialize (IH _ Hg'). simpl in IH.
    destruct (Minesweeper.place n draws _) as [g'|[]]; try done.
    + destruct IH as (? & ? & ? & ? & ? & ?).
      split_and!; [done..|set_solver|done].
    + destruct IH as [? _]. done.
Qed.

Lemma length_pairs (rows cols : list Z) :
  length (i ← rows; (λ j, (i, j)) <$> cols) = (length rows * length cols)%nat.
Proof.
  induction rows as [|i rows IH]; [done|].
  change (length (((λ j, (i, j)) <$> cols)
                  ++ (i' ← rows; (λ j, (i', j)) <$> cols))
          = (length cols + length rows * length cols)%nat).
  by rewrite length_app, length_fmap, IH.
Qed.

Lemma size_on_board (X : gset Cell) h w :
  (∀ c, c ∈ X → in_bounds h w c) → (size X ≤ Z.to_nat h * Z.to_nat w)%nat.
Proof.
  intros HX.
  set (L := i ← range 0 h; (λ j, (i, j)) <$> range 0 w).
  assert (X ⊆ list_to_set L) as Hsub.
  { intros c Hc. apply elem_of_list_to_set. subst L. apply elem_of_pairs.
    destruct (HX c Hc) as [? ?]. by rewrite !elem_of_range. }
  apply subseteq_size in Hsub. etrans; [exact Hsub|].
  etrans; [apply size_list_to_set_le|].
  subst L. rewrite length_pairs, !length_range.
  by replace (h - 0) with h by lia; replace (w - 0) with w by lia.
Qed.

(** X13. The constructor of the board.  When [Minesweeper(height, width,
    mines)] returns, the field has [height] rows of [width] cells, it holds
    [True] exactly at the cells of [self.mines], these are [mines] cells of
    the board, so that [mines] is between 0 and the number of cells, and
    [mines_found] is empty, so that [won] holds exactly for 0 mines.  It
    never raises [IndexError]; it raises the [ValueError] of
    [random.randrange] only for a board without rows or without columns
    and a number of mines other than 0; and it can go on drawing only when
    the number of mines is not 0. *)
Theorem board_constructor (h w n : Z) (draws : list (Z * Z)) :
  match Minesweeper.init h w n draws with
  | Minesweeper.Return g =>
      Minesweeper.consistent g
      ∧ Minesweeper.height g = h ∧ Minesweeper.width g = w
      ∧ Z.of_nat (size (Minesweeper.mines g)) = n
      ∧ 0 ≤ n ∧ n ≤ Z.max 0 h * Z.max 0 w
      ∧ Minesweeper.mines_found g = ∅
      ∧ (Minesweeper.won g = true ↔ n = 0)
  | Minesweeper.Raises Minesweeper.ValueError => (h ≤ 0 ∨ w ≤ 0) ∧ n ≠ 0
  | Minesweeper.Raises Minesweeper.IndexError => False
  | Minesweeper.Raises Minesweeper.NoMoreDraws => n ≠ 0
  end.
Proof.
  unfold Minesweeper.init.
  pose proof (place_spec n draws _ (empty_board_consistent h w)) as H.
  cbn [Minesweeper.height Minesweeper.width Minesweeper.mines
       Minesweeper.mines_found] in H.
  assert (size (∅ : gset Cell) = 0%nat) as H0 by apply size_empty.
  rewrite H0 in H.
  destruct (Minesweeper.place n draws _) as [g|[]]; try done.
  - destruct H as (Hg & Hh & Hw & Hn & _ & Hf).
    pose proof Hg as (_ & _ & _ & Hin).
    apply size_on_board in Hin. rewrite Hh, Hw in Hin.
    split_and!; [done|done|done|done|lia|nia|done|].
    unfold Minesweeper.won. rewrite Hf, bool_decide_eq_true. split.
    + intros Heq. rewrite <- Heq, H0 in Hn. lia.
    + intros ->. symmetry. apply leibniz_equiv, size_empty_inv. lia.
  - destruct H as [? ?]. split; [done|lia].
Qed.

(** ** Counting the mines around a cell *)

Lemma elem_of_neighbours8 h w (c c' : Cell) :
  c' ∈ neighbours8 h w c
  ↔ in_bounds h w c' ∧ c' ≠ c
    ∧ (c.1 - 1 ≤ c'.1 ∧ c'.1 < c.1 + 2) ∧ (c.2 - 1 ≤ c'.2 ∧ c'.2 < c.2 + 2).
Proof.
  unfold neighbours8. rewrite elem_of_list_to_set, list_elem_of_filter.
  rewrite !elem_of_cons, elem_of_nil.
  destruct c as [ci cj], c' as [i j]. simpl. split.
  - intros [Hb Hor]. split; [done|].
    assert (((ci - 1 ≤ i ∧ i < ci + 2) ∧ (cj - 1 ≤ j ∧ j < cj + 2))
            ∧ ¬ (i = ci ∧ j = cj)) as [Hr Hne].
    { repeat destruct Hor as [ [= -> ->] | Hor ]; lia. }
    split; [|done]. intros [= -> ->]. lia.
  - intros (Hb & Hne & Hi & Hj). split; [done|].
    assert (i = ci - 1 ∨ i = ci ∨ i = ci + 1) as Hi' by lia.
    assert (j = cj - 1 ∨ j = cj ∨ j = cj + 1) as Hj' by lia.
    destruct Hi' as [ -> | [ -> | -> ] ]; destruct Hj' as [ -> | [ -> | -> ] ];
      try (exfalso; by apply Hne); tauto.
Qed.

Lemma NoDup_pairs (rows cols : list Z) :
  NoDup rows → NoDup cols → NoDup (i ← rows; (λ j, (i, j)) <$> cols).
Proof.
  intros Hr Hc. induction Hr as [|i rows Hi Hr IH]; [constructor|].
  change (NoDup (((λ j, (i, j)) <$> cols)
                 ++ (i' ← rows; (λ j, (i', j)) <$> cols))).
  apply list.NoDup_app. split; [|split; [|done]].
  - apply NoDup_fmap; [|done]. by intros j1 j2 [= ->].
  - intros c Hc1 Hc2. apply elem_of_pairs in Hc2 as [Hc2 _].
    apply list_elem_of_fmap in Hc1 as (j & -> & _). done.
Qed.

Lemma nearby_step_eq g cell (x : Cell) (count : Z) :
  Minesweeper.consistent g →
  Minesweeper.nearby_step g cell (Minesweeper.Return count) x
  = Minesweeper.Return
      (count
       + (if decide (x ≠ cell
                     ∧ in_bounds (Minesweeper.height g) (Minesweeper.width g) x
                     ∧ x ∈ Minesweeper.mines g)
          then 1 else 0)).
Proof.
  intros (_ & _ & Hget & _). unfold Minesweeper.nearby_step. simpl.
  destruct (decide (x = cell)) as [->|Hne].
  { rewrite decide_False by tauto. f_equal. lia. }
  destruct (decide ((0 ≤ x.1 ∧ x.1 < _) ∧ _)) as [Hb|Hnb].
  - change (in_bounds (Minesweeper.height g) (Minesweeper.width g) x) in Hb.
    rewrite (Hget x Hb). simpl.
    destruct (decide (x ∈ Minesweeper.mines g)) as [Hm|Hm].
    + rewrite bool_decide_eq_true_2 by done. by rewrite decide_True.
    + rewrite bool_decide_eq_false_2 by done.
      rewrite decide_False by tauto. f_equal. lia.
  - rewrite decide_False; [f_equal; lia|].
    intros (_ & Hb & _). by apply Hnb.
Qed.

Lemma nearby_fold g cell (l : list Cell) (count : Z) :
  Minesweeper.consistent g →
  foldl (Minesweeper.nearby_step g cell) (Minesweeper.Return count) l
  = Minesweeper.Return
      (count
       + Z.of_nat (length (filter
           (λ c, c ≠ cell
                 ∧ in_bounds (Minesweeper.height g) (Minesweeper.width g) c
                 ∧ c ∈ Minesweeper.mines g) l))).
Proof.
  intros Hg. revert count.
  induction l as [|x l IH]; intros count.
  { simpl. f_equal. lia. }
  cbn [foldl]. rewrite nearby_step_eq by done. rewrite IH, filter_cons.
  destruct (decide _); simpl; f_equal; lia.
Qed.

Lemma nearby_mines_eq g cell :
  Minesweeper.consistent g →
  Minesweeper.nearby_mines g cell
  = Minesweeper.Return
      (Z.of_nat (size (neighbours8 (Minesweeper.height g)
                         (Minesweeper.width g) cell
                       ∩ Minesweeper.mines g))).
Proof.
  intros Hg. unfold Minesweeper.nearby_mines.
  rewrite (nested_foldl (Minesweeper.nearby_step g cell)).
  rewrite nearby_fold by done. f_equal. rewrite Z.add_0_l. f_equal.
  rewrite <- (size_list_to_set (C:=gset Cell)).
  2:{ apply list.NoDup_filter, NoDup_pairs; apply NoDup_seqZ. }
  f_equal. apply set_eq. intros c.
  rewrite elem_of_list_to_set, list_elem_of_filter, elem_of_pairs.
  rewrite !elem_of_range, elem_of_intersection, elem_of_neighbours8. tauto.
Qed.

(** X14. On a board whose field agrees with its set of mines,
    [nearby_mines] never raises and returns, for every cell, on or off the
    board, the number of in-bounds 8-neighbours of the cell that are
    mines; the cell itself is not counted. *)
Theorem nearby_mines_counts (g : Minesweeper.t) (cell : Cell) :
  Minesweeper.consistent g →
  Minesweeper.nearby_mines g cell
  = Minesweeper.Return
      (Z.of_nat (size (neighbours8 (Minesweeper.height g)
                         (Minesweeper.width g) cell
                       ∩ Minesweeper.mines g)))
  ∧ Minesweeper.nearby_mines g cell
    = Minesweeper.Return
        (Z.of_nat (size (neighbours8 (Minesweeper.height g)
                           (Minesweeper.width g) cell
                         ∩ (Minesweeper.mines g ∖ {[cell]})))).
Proof.
  intros Hg. rewrite nearby_mines_eq by done. split; [done|].
  do 3 f_equal.
  pose proof (cell_not_neighbour (Minesweeper.height g)
                (Minesweeper.width g) cell).
  set_solver.
Qed.

Lemma board_2x3_consistent :
  ∃ g, Minesweeper.init 2 3 2 [(0, 4); (2, 1); (5, 5)] = Minesweeper.Return g
       ∧ Minesweeper.consistent g
       ∧ Minesweeper.height g = 2 ∧ Minesweeper.width g = 3
       ∧ Minesweeper.mines g = {[ (0, 1); (1, 2) ]}.
Proof.
  pose proof (place_spec 2 [(0, 4); (2, 1); (5, 5)] _
                (empty_board_consistent 2 3)) as H.
  change (Minesweeper.place 2 _ _)
    with (Minesweeper.init 2 3 2 [(0, 4); (2, 1); (5, 5)]) in H.
  destruct (Minesweeper.init 2 3 2 [(0, 4); (2, 1); (5, 5)]) as [g|e] eqn:Hi;
    [|by vm_compute in Hi].
  exists g. split; [done|]. split; [tauto|].
  vm_compute in Hi. injection Hi as <-. done.
Qed.

Lemma nearby_mines_counts_witness :
  let g := {| Minesweeper.height := 2; Minesweeper.width := 3;
              Minesweeper.mines := {[ (0, 1); (1, 2) ]};
              Minesweeper.board :=
                [[false; true; false]; [false; false; true]];
              Minesweeper.mines_found := ∅ |} in
  Minesweeper.consistent g
  ∧ Minesweeper.nearby_mines g (0, 2)
    = Minesweeper.Return
        (Z.of_nat (size (neighbours8 (Minesweeper.height g)
                           (Minesweeper.width g) (0, 2)
                         ∩ Minesweeper.mines g)))
  ∧ Minesweeper.nearby_mines g (0, 2)
    = Minesweeper.Return
        (Z.of_nat (size (neighbours8 (Minesweeper.height g)
                           (Minesweeper.width g) (0, 2)
                         ∩ (Minesweeper.mines g ∖ {[ (0, 2) ]})))).
Proof.
  intros g.
  assert (Minesweeper.consistent g) as Hg.
  { destruct board_2x3_consistent as (g' & Hi & Hg' & _).
    vm_compute in Hi. injection Hi as <-. exact Hg'. }
  split; [exact Hg|]. exact (nearby_mines_counts g (0, 2) Hg).
Defined.

(** ** Asking for a cell *)

(** X15. [is_mine] on a board whose field agrees with its set of mines:
    for a cell of the board it tells whether the cell is a mine; a negative
    row or column down to minus the height or width is taken from the end,
    as Python indexes, so that the answer is that of the wrapped cell;
    any index further out raises [IndexError]. *)
Theorem is_mine_indexing (g : Minesweeper.t) :
  Minesweeper.consistent g →
  (∀ c, in_bounds (Minesweeper.height g) (Minesweeper.width g) c →
        Minesweeper.is_mine g c
        = Minesweeper.Return (bool_decide (c ∈ Minesweeper.mines g)))
  ∧ (∀ i j, - Minesweeper.height g ≤ i ∧ i < 0 →
            Minesweeper.is_mine g (i, j)
            = Minesweeper.is_mine g (i + Minesweeper.height g, j))
  ∧ (∀ i j, 0 ≤ i ∧ i < Minesweeper.height g →
            - Minesweeper.width g ≤ j ∧ j < 0 →
            Minesweeper.is_mine g (i, j)
            = Minesweeper.is_mine g (i, j + Minesweeper.width g))
  ∧ (∀ i j, i < - Minesweeper.height g ∨ Minesweeper.height g ≤ i
            ∨ j < - Minesweeper.width g ∨ Minesweeper.width g ≤ j →
            Minesweeper.is_mine g (i, j)
            = Minesweeper.Raises Minesweeper.IndexError).
Proof.
  intros (Hlen & Hrows & Hget & _). unfold Minesweeper.is_mine.
  assert (∀ i row, Minesweeper.py_get (Minesweeper.board g) i
                   = Minesweeper.Return row →
                   length row = Z.to_nat (Minesweeper.width g)) as Hrow.
  { intros i row Hi. unfold Minesweeper.py_get in Hi.
    destruct (Minesweeper.py_index _ i) as [k|]; [|done]. simpl in Hi.
    destruct (Minesweeper.board g !! k) as [row'|] eqn:Hk; [|done].
    injection Hi as ->. eapply list.Forall_forall in Hrows; [exact Hrows|].
    by eapply list_elem_of_lookup_2. }
  split; [done|]. split; [|split].
  - intros i j Hi. unfold Minesweeper.get2. simpl.
    rewrite py_get_negative by lia. do 2 f_equal. lia.
  - intros i j Hi Hj. unfold Minesweeper.get2. simpl.
    destruct (Minesweeper.py_get (Minesweeper.board g) i) as [row|] eqn:Hr;
      [|done]. simpl.
    apply Hrow in Hr. rewrite py_get_negative by lia. do 2 f_equal. lia.
  - intros i j Hout. unfold Minesweeper.get2. simpl.
    destruct (Minesweeper.py_get (Minesweeper.board g) i) as [row|e] eqn:Hr.
    + simpl. apply Hrow in Hr as Hl.
      destruct (decide (i < - Minesweeper.height g ∨ Minesweeper.height g ≤ i))
        as [Hi|Hi].
      { rewrite py_get_out in Hr by lia. done. }
      apply py_get_out. lia.
    + simpl. unfold Minesweeper.py_get, Minesweeper.py_index in Hr.
      repeat destruct (decide _) in Hr; simpl in Hr;
        try destruct (_ !! _) in Hr; congruence.
Qed.

Lemma is_mine_indexing_witness :
  let g := {| Minesweeper.height := 2; Minesweeper.width := 3;
              Minesweeper.mines := {[ (0, 1); (1, 2) ]};
              Minesweeper.board :=
                [[false; true; false]; [false; false; true]];
              Minesweeper.mines_found := ∅ |} in
  Minesweeper.consistent g
  ∧ Minesweeper.is_mine g (-1, 2) = Minesweeper.is_mine g (-1 + 2, 2)
  ∧ Minesweeper.is_mine g (0, 3) = Minesweeper.Raises Minesweeper.IndexError.
Proof.
  intros g.
  assert (Minesweeper.consistent g) as Hg.
  { destruct board_2x3_consistent as (g' & Hi & Hg' & _).
    vm_compute in Hi. injection Hi as <-. exact Hg'. }
  split; [exact Hg|].
  destruct (is_mine_indexing g Hg) as (_ & Hneg & _ & Hout).
  split.
  - apply (Hneg (-1) 2). simpl. lia.
  - apply (Hout 0 3). simpl. lia.
Defined.

(** ** A game: the knowledge base fed by the board *)

Lemma board_observation_truthful g (ob : Cell * Z) :
  Minesweeper.consistent g →
  in_bounds (Minesweeper.height g) (Minesweeper.width g) ob.1 →
  Minesweeper.is_mine g ob.1 = Minesweeper.Return false →
  Minesweeper.nearby_mines g ob.1 = Minesweeper.Return ob.2 →
  truthful (Minesweeper.height g) (Minesweeper.width g)
           (Minesweeper.mines g) ob.
Proof.
  intros Hg Hb Hm Hn. pose proof Hg as (_ & _ & Hget & _).
  unfold Minesweeper.is_mine in Hm. rewrite (Hget _ Hb) in Hm.
  injection Hm as Hm. apply bool_decide_eq_false in Hm.
  rewrite nearby_mines_eq in Hn by done. injection Hn as Hn.
  split; [done|]. by rewrite <- Hn.
Qed.

(** X16. A game played against the board is safe.  On a board whose field
    agrees with its set of mines, feed [add_knowledge] any cells of the
    board for which [is_mine] answers [False], each with the count that
    [nearby_mines] returns for it: every call returns, every cell of
    [safes] is free of mine, every cell of [mines] is a mine of the board,
    and [make_safe_move] never proposes a mine. *)
Theorem game_is_safe (g : Minesweeper.t) (obs : list (Cell * Z)) :
  Minesweeper.consistent g →
  Forall (λ ob,
            in_bounds (Minesweeper.height g) (Minesweeper.width g) ob.1
            ∧ Minesweeper.is_mine g ob.1 = Minesweeper.Return false
            ∧ Minesweeper.nearby_mines g ob.1 = Minesweeper.Return ob.2) obs →
  ∃ ai, play (MinesweeperAI_init (Minesweeper.height g) (Minesweeper.width g))
             obs = Ok ai
        ∧ (∀ c, c ∈ safes ai → c ∉ Minesweeper.mines g)
        ∧ (∀ c, c ∈ mines ai → c ∈ Minesweeper.mines g)
        ∧ (∀ c, make_safe_move ai = Some c → c ∉ Minesweeper.mines g).
Proof.
  intros Hg Hobs.
  destruct (play_sound (Minesweeper.mines g) obs
              (MinesweeperAI_init (Minesweeper.height g) (Minesweeper.width g)))
    as (ai & Hp & Hk & Hs & Hm).
  - split; [constructor|]. simpl. split; set_solver.
  - simpl. eapply list.Forall_impl; [exact Hobs|].
    intros ob (Hb & Hmine & Hn). by apply board_observation_truthful.
  - exists ai. split; [done|]. split; [set_solver|]. split; [set_solver|].
    intros c Hc. unfold make_safe_move in Hc.
    pose proof (first_safe_spec ai (elements (safes ai))) as H.
    rewrite Hc in H. destruct H as (Hin%elem_of_elements & _). set_solver.
Qed.

Lemma game_is_safe_witness :
  let g := {| Minesweeper.height := 2; Minesweeper.width := 3;
              Minesweeper.mines := {[ (0, 1); (1, 2) ]};
              Minesweeper.board :=
                [[false; true; false]; [false; false; true]];
              Minesweeper.mines_found := ∅ |} in
  let obs := [((0, 0), 1); ((1, 0), 1)] in
  Minesweeper.consistent g
  ∧ Forall (λ ob,
              in_bounds (Minesweeper.height g) (Minesweeper.width g) ob.1
              ∧ Minesweeper.is_mine g ob.1 = Minesweeper.Return false
              ∧ Minesweeper.nearby_mines g ob.1 = Minesweeper.Return ob.2)
           obs
  ∧ ∃ ai, play (MinesweeperAI_init (Minesweeper.height g)
                  (Minesweeper.width g)) obs = Ok ai
          ∧ (∀ c, c ∈ safes ai → c ∉ Minesweeper.mines g)
          ∧ (∀ c, c ∈ mines ai → c ∈ Minesweeper.mines g)
          ∧ (∀ c, make_safe_move ai = Some c → c ∉ Minesweeper.mines g).
Proof.
  intros g obs.
  assert (Minesweeper.consistent g) as Hg.
  { destruct board_2x3_consistent as (g' & Hi & Hg' & _).
    vm_compute in Hi. injection Hi as <-. exact Hg'. }
  assert (Forall (λ ob,
            in_bounds (Minesweeper.height g) (Minesweeper.width g) ob.1
            ∧ Minesweeper.is_mine g ob.1 = Minesweeper.Return false
            ∧ Minesweeper.nearby_mines g ob.1 = Minesweeper.Return ob.2) obs)
    as Hobs.
  { repeat constructor; simpl; try lia; by vm_compute. }
  split; [exact Hg|]. split; [exact Hobs|]. exact (game_is_safe g obs Hg Hobs).
Defined.

(** * Further properties of the inference loop *)

Lemma loop_cond_init h w : loop_cond (MinesweeperAI_init h w) = false.
Proof. reflexivity. Qed.

Lemma play_sound_saturated M obs ai :
  sound M ai → loop_cond ai = false →
  Forall (truthful (height ai) (width ai) M) obs →
  ∃ ai', play ai obs = Ok ai' ∧ sound M ai' ∧ loop_cond ai' = false.
Proof.
  revert ai. induction obs as [|[cell n] obs IH]; intros ai Hs Hc Hobs; simpl.
  { eauto. }
  apply list.Forall_cons in Hobs as [Ht Hobs].
  destruct (add_knowledge_sound M ai cell n Hs Ht) as (ai1 & Ha & [Hh Hw] & Hs1).
  destruct (add_knowledge_ok ai cell n) as (ai2 & Ha2 & Hc2 & _).
  rewrite Ha in Ha2. injection Ha2 as <-. rewrite Ha. simpl.
  apply IH; [done|done|]. by rewrite Hh, Hw.
Qed.

(** X17. In a game with truthful observations, what is left in the
    knowledge list is undetermined: after every call of [add_knowledge],
    each sentence that still has cells has at least one mine and at least
    one safe cell among them, its count being strictly between 0 and the
    number of its cells, so that it has at least two cells. *)
Theorem truthful_game_undetermined (h w : Z) (M : gset Cell)
    (obs : list (Cell * Z)) :
  Forall (truthful h w M) obs →
  ∃ ai, play (MinesweeperAI_init h w) obs = Ok ai
        ∧ ∀ s, s ∈ knowledge ai → cells s ≠ ∅ →
               0 < count s ∧ count s < Z.of_nat (size (cells s))
               ∧ (2 ≤ size (cells s))%nat.
Proof.
  intros Hobs.
  destruct (play_sound_saturated M obs (MinesweeperAI_init h w))
    as (ai & Hp & (Hk & _ & _) & Hc).
  - split; [constructor|]. simpl. split; set_solver.
  - apply loop_cond_init.
  - done.
  - exists ai. split; [done|]. intros s Hs Hne.
    apply loop_cond_false in Hc as (_ & H2 & H3).
    eapply list.Forall_forall in Hk; [|done]. unfold sound_sentence in Hk.
    assert (count s ≠ 0) as H0.
    { intros H0. apply (filter_nil_not _ _ s H2 Hs).
      unfold Sentence.known_safes. by rewrite decide_True. }
    assert (Z.of_nat (size (cells s)) ≠ count s) as Hn.
    { intros Hn. apply (filter_nil_not _ _ s H3 Hs).
      unfold Sentence.known_mines. by rewrite decide_True. }
    assert (size (cells s ∩ M) ≤ size (cells s))%nat as Hle.
    { apply subseteq_size. set_solver. }
    lia.
Qed.

Lemma truthful_two_observations :
  Forall (truthful 2 2 {[ (1, 1) ]}) [((0, 0), 1); ((0, 1), 1)].
Proof.
  repeat constructor; simpl; try (by vm_compute);
    intros ->%elem_of_singleton; discriminate.
Qed.

(** After the first two observations of the 2 by 2 game the list holds
    two sentences "one mine among (1, 0) and (1, 1)". *)
Lemma truthful_game_undetermined_witness :
  Forall (truthful 2 2 {[ (1, 1) ]}) [((0, 0), 1); ((0, 1), 1)]
  ∧ ∃ ai, play (MinesweeperAI_init 2 2) [((0, 0), 1); ((0, 1), 1)] = Ok ai
          ∧ ∀ s, s ∈ knowledge ai → cells s ≠ ∅ →
                 0 < count s ∧ count s < Z.of_nat (size (cells s))
                 ∧ (2 ≤ size (cells s))%nat.
Proof.
  split; [exact truthful_two_observations|].
  exact (truthful_game_undetermined 2 2 {[ (1, 1) ]}
           [((0, 0), 1); ((0, 1), 1)] truthful_two_observations).
Defined.

Example two_observations_knowledge :
  ∃ ai, play (MinesweeperAI_init 2 2) [((0, 0), 1); ((0, 1), 1)] = Ok ai
        ∧ knowledge ai
          = [ {| cells := {[ (1, 0); (1, 1) ]}; count := 1 |};
              {| cells := {[ (1, 0); (1, 1) ]}; count := 1 |} ].
Proof. eexists. split; by vm_compute. Qed.

(** X18. Marking a cell of a sentence that is true of the mine set [M]:
    [mark_mine] leaves the sentence true exactly when the cell is a mine,
    [mark_safe] exactly when it is not; a cell that does not occur in the
    sentence changes nothing. *)
Theorem marking_keeps_truth (M : gset Cell) (s : Sentence) (c : Cell) :
  sound_sentence M s →
  (c ∈ cells s →
   (sound_sentence M (Sentence.mark_mine s c) ↔ c ∈ M)
   ∧ (sound_sentence M (Sentence.mark_safe s c) ↔ c ∉ M))
  ∧ (c ∉ cells s →
     Sentence.mark_mine s c = s ∧ Sentence.mark_safe s c = s).
Proof.
  intros Hs. split.
  - intros Hc. split; split.
    + intros Hm. destruct (decide (c ∈ M)) as [|Hn]; [done|]. exfalso.
      pose proof (sound_sentence_mark_safe M s c Hn Hs) as Hsafe.
      unfold sound_sentence in Hm, Hsafe.
      rewrite sentence_mark_mine_in in Hm by done.
      rewrite sentence_mark_safe_in in Hsafe by done. simpl in *. lia.
    + intros Hm. by apply sound_sentence_mark_mine.
    + intros Hm Hin.
      pose proof (sound_sentence_mark_mine M s c Hin Hs) as Hmine.
      unfold sound_sentence in Hm, Hmine.
      rewrite sentence_mark_mine_in in Hmine by done.
      rewrite sentence_mark_safe_in in Hm by done. simpl in *. lia.
    + intros Hm. by apply sound_sentence_mark_safe.
  - intros Hc. split.
    + by apply sentence_mark_mine_notin.
    + by apply sentence_mark_safe_notin.
Qed.

Lemma marking_keeps_truth_witness :
  let M : gset Cell := {[ (1, 1) ]} in
  let s := Sentence.init {[ (0, 1); (1, 1) ]} 1 in
  sound_sentence M s
  ∧ (1, 1) ∈ cells s
  ∧ (sound_sentence M (Sentence.mark_mine s (1, 1)) ↔ (1, 1) ∈ M)
  ∧ (sound_sentence M (Sentence.mark_safe s (1, 1)) ↔ (1, 1) ∉ M).
Proof.
  intros M s.
  assert (sound_sentence M s) as Hs by (by vm_compute).
  assert ((1, 1) ∈ cells s) as Hc by (simpl; set_solver).
  split; [exact Hs|]. split; [exact Hc|].
  exact (proj1 (marking_keeps_truth M s (1, 1) Hs) Hc).
Defined.

(** X19. The subsetting step of the loop always returns: [remove] is only
    called on a sentence that is in the list.  It replaces sentences one
    for one, so that the list keeps its length and its number of empty
    sentences, it adds no cell, and it leaves the list as it is when
    [inference_1] finds nothing. *)
Theorem subsetting_step (ai : MinesweeperAI) :
  ∃ k', resolve_pass (knowledge ai) = Ok k'
    ∧ length k' = length (knowledge ai)
    ∧ empties k' = empties (knowledge ai)
    ∧ (total_cells k' ≤ total_cells (knowledge ai))%nat
    ∧ (inference_1 ai = [] → k' = knowledge ai).
Proof.
  destruct (outer_loop_ok (knowledge ai) (knowledge ai) (knowledge ai))
    as (k' & Hk & Hr & Hd); [done|].
  destruct (chain_measures _ _ _ Hr) as (Hl & He & Ht).
  exists k'. split; [done|]. split; [done|]. split; [done|]. split; [done|].
  intros Hnil. destruct Hd as [[-> _]|Htc]; [done|]. exfalso.
  apply tc_nsteps in Htc as (m & Hm & Hst).
  inversion Hst as [|m' x y z (s1 & H1 & s2 & H2 & Hsub & _) Hrest]; subst;
    [lia|].
  by rewrite (inference_1_nil ai Hnil s1 s2 H1 H2) in Hsub.
Qed.
